(** * radix_simd: a small-prime sieve over paired 4-lane registers

    Shallow embedding of [native/radix_simd.cpp] and the properties of
    its Barrett reducer, its scalar primality test and its batch engine.

    Machine integers are [Z] with the wrap-around written out
    ([wrap32], [wrap64]); a NEON register is a record of lanes; the
    arrays [numbers] and [results] are lists read with [!!!] and
    written with [<[ _ := _ ]>]. *)

From stdpp Require Import base list numbers.
From Stdlib Require Import ZArith Znumtheory Lia.
From Stdlib Require Ascii String.
Import String.StringSyntax.
Local Delimit Scope string_scope with string.
From stdpp Require pretty.

Local Open Scope Z_scope.

(** ** Machine arithmetic *)

Definition UINT32_MAX : Z := 4294967295.

Definition wrap32 (x : Z) : Z := x mod 2 ^ 32.
Definition wrap64 (x : Z) : Z := x mod 2 ^ 64.

Definition is_uint32 (x : Z) : Prop := 0 <= x < 2 ^ 32.
Definition is_uint64 (x : Z) : Prop := 0 <= x < 2 ^ 64.

(** ** The NEON intrinsics the program uses *)

Module Neon.

Record uint32x2_t := U32x2 { d0 : Z; d1 : Z }.
Record uint64x2_t := U64x2 { w0 : Z; w1 : Z }.
Record uint32x4_t := U32x4 { q0 : Z; q1 : Z; q2 : Z; q3 : Z }.

(** Lane [j] of a 4-lane register; lanes are numbered 0..3. *)
Definition lane (v : uint32x4_t) (j : nat) : Z :=
  match j with
  | 0%nat => q0 v
  | 1%nat => q1 v
  | 2%nat => q2 v
  | _ => q3 v
  end.

Definition map2q (f : Z -> Z -> Z) (a b : uint32x4_t) : uint32x4_t :=
  U32x4 (f (q0 a) (q0 b)) (f (q1 a) (q1 b)) (f (q2 a) (q2 b)) (f (q3 a) (q3 b)).

Definition all_ones : Z := 4294967295.

Definition vdupq_n_u32 (x : Z) : uint32x4_t := U32x4 x x x x.

Definition vld1q_u32 (a : list Z) : uint32x4_t :=
  U32x4 (a !!! 0%nat) (a !!! 1%nat) (a !!! 2%nat) (a !!! 3%nat).

Definition vst1q_u32 (v : uint32x4_t) : list Z := [q0 v; q1 v; q2 v; q3 v].

Definition vget_low_u32 (v : uint32x4_t) : uint32x2_t := U32x2 (q0 v) (q1 v).
Definition vget_high_u32 (v : uint32x4_t) : uint32x2_t := U32x2 (q2 v) (q3 v).

Definition vcombine_u32 (lo hi : uint32x2_t) : uint32x4_t :=
  U32x4 (d0 lo) (d1 lo) (d0 hi) (d1 hi).

(** Widening multiply: 32 x 32 -> 64 bits in each lane. *)
Definition vmull_u32 (a b : uint32x2_t) : uint64x2_t :=
  U64x2 (wrap64 (d0 a * d0 b)) (wrap64 (d1 a * d1 b)).

(** Shift right by [n] and narrow to the low 32 bits. *)
Definition vshrn_n_u64 (v : uint64x2_t) (n : Z) : uint32x2_t :=
  U32x2 (wrap32 (Z.shiftr (w0 v) n)) (wrap32 (Z.shiftr (w1 v) n)).

Definition vmulq_u32 : uint32x4_t -> uint32x4_t -> uint32x4_t :=
  map2q (fun a b => wrap32 (a * b)).

Definition vsubq_u32 : uint32x4_t -> uint32x4_t -> uint32x4_t :=
  map2q (fun a b => wrap32 (a - b)).

Definition vcgeq_u32 : uint32x4_t -> uint32x4_t -> uint32x4_t :=
  map2q (fun a b => if a >=? b then all_ones else 0).

Definition vceqq_u32 : uint32x4_t -> uint32x4_t -> uint32x4_t :=
  map2q (fun a b => if a =? b then all_ones else 0).

Definition vandq_u32 : uint32x4_t -> uint32x4_t -> uint32x4_t :=
  map2q Z.land.

Definition vorrq_u32 : uint32x4_t -> uint32x4_t -> uint32x4_t :=
  map2q Z.lor.

Definition vmvnq_u32 (a : uint32x4_t) : uint32x4_t :=
  U32x4 (Z.lxor (q0 a) all_ones) (Z.lxor (q1 a) all_ones)
        (Z.lxor (q2 a) all_ones) (Z.lxor (q3 a) all_ones).

End Neon.

Import Neon.

(** ** The prime bank *)

Definition kSmallPrimes : list Z := [2; 3; 5; 7; 11; 13; 17; 19].
Definition kExtendedPrimes : list Z := [23; 29; 31; 37; 41; 43; 47; 53].

(** The bank in the order the group pass applies it. *)
Definition prime_bank : list Z := kSmallPrimes ++ kExtendedPrimes.

(** ** Barrett reducer *)

Definition make_barrett_magic (p : Z) : Z :=
  wrap32 (wrap64 (wrap64 (wrap64 (Z.shiftl 1 32) + p) - 1) / p).

Definition barrett_modq_u32_dual
    (n_vec1 n_vec2 magic_vec p_vec : uint32x4_t) : uint32x4_t * uint32x4_t :=
  let lo1 := vmull_u32 (vget_low_u32 n_vec1) (vget_low_u32 magic_vec) in
  let hi1 := vmull_u32 (vget_high_u32 n_vec1) (vget_high_u32 magic_vec) in
  let lo2 := vmull_u32 (vget_low_u32 n_vec2) (vget_low_u32 magic_vec) in
  let hi2 := vmull_u32 (vget_high_u32 n_vec2) (vget_high_u32 magic_vec) in
  let q_low1 := vshrn_n_u64 lo1 32 in
  let q_high1 := vshrn_n_u64 hi1 32 in
  let q_low2 := vshrn_n_u64 lo2 32 in
  let q_high2 := vshrn_n_u64 hi2 32 in
  let q_vec1 := vcombine_u32 q_low1 q_high1 in
  let q_vec2 := vcombine_u32 q_low2 q_high2 in
  let qp_vec1 := vmulq_u32 q_vec1 p_vec in
  let qp_vec2 := vmulq_u32 q_vec2 p_vec in
  let remainder1 := vsubq_u32 n_vec1 qp_vec1 in
  let remainder2 := vsubq_u32 n_vec2 qp_vec2 in
  let cmp1 := vcgeq_u32 remainder1 p_vec in
  let cmp2 := vcgeq_u32 remainder2 p_vec in
  (vsubq_u32 remainder1 (vandq_u32 cmp1 p_vec),
   vsubq_u32 remainder2 (vandq_u32 cmp2 p_vec)).

(** What [barrett_modq_u32_dual] computes in one lane: the estimated
    quotient, the wrapped remainder and the single conditional
    subtraction. *)
Definition barrett_quotient (n magic : Z) : Z :=
  wrap32 (Z.shiftr (wrap64 (n * magic)) 32).

Definition barrett_lane (n magic p : Z) : Z :=
  let q := barrett_quotient n magic in
  let r := wrap32 (n - wrap32 (q * p)) in
  wrap32 (r - Z.land (if r >=? p then all_ones else 0) p).

(** ** Scalar trial division *)

(** One turn of [for (uint64_t i = 3; i * i <= n; i += 2)]: the test,
    the body and the increment, with [i * i] and [i += 2] wrapping at
    64 bits.  [inr b] when the function returns [b], [inl i'] when the
    loop goes on with [i']. *)
Definition trial_step (n i : Z) : Z + bool :=
  if wrap64 (i * i) <=? n then
    if n mod i =? 0 then inr false
    else inl (wrap64 (i + 2))
  else inr true.

(** At most [m] turns of the loop. *)
Fixpoint trial_steps (m : nat) (n i : Z) : Z + bool :=
  match m with
  | O => inl i
  | S m' =>
      match trial_step n i with
      | inl i' => trial_steps m' n i'
      | inr b => inr b
      end
  end.

(** At most [2 ^ k] turns of the loop, by doubling (see
    [trial_iter_steps]); this is the form that evaluates. *)
Fixpoint trial_iter (k : nat) (n i : Z) : Z + bool :=
  match k with
  | O => trial_step n i
  | S k' =>
      match trial_iter k' n i with
      | inl i' => trial_iter k' n i'
      | inr b => inr b
      end
  end.

(** [is_prime_scalar] with its loop capped at [2 ^ k] turns; [None]
    when the cap is hit before the function returns. *)
Definition is_prime_scalar_run (k : nat) (n : Z) : option bool :=
  if n <? 2 then Some false
  else if n mod 2 =? 0 then Some (n =? 2)
  else match trial_iter k n 3 with
       | inr b => Some b
       | inl _ => None
       end.

(** The loop variable takes odd values and stops at [n] at the
    latest, so a cap of [2 ^ 64] turns is never hit on a 64-bit [n]
    (see [is_prime_scalar_run_some]) and the [None] case is never
    reached. *)
Definition is_prime_scalar (n : Z) : bool :=
  match is_prime_scalar_run 64 n with
  | Some b => b
  | None => false
  end.

(** ** Batch engine *)

(** [process_scalar(&numbers[base], &results[base], count)]. *)
Definition process_scalar
    (numbers : list Z) (results : list bool) (base count : nat) : list bool :=
  fold_left
    (fun res i => <[(base + i)%nat := is_prime_scalar (numbers !!! (base + i)%nat)]> res)
    (seq 0 count) results.

(** The range guard: no candidate of the group exceeds [UINT32_MAX]. *)
Definition can_use_neon (numbers : list Z) (i : nat) : bool :=
  forallb (fun j => negb (numbers !!! (i + j)%nat >? UINT32_MAX)) (seq 0 8).

(** The lambda [sieve]; the two masks it captures by reference are
    threaded through. *)
Definition sieve (n_vec1 n_vec2 : uint32x4_t)
    (masks : uint32x4_t * uint32x4_t) (prime : Z) : uint32x4_t * uint32x4_t :=
  let p_vec := vdupq_n_u32 prime in
  let m_vec := vdupq_n_u32 (make_barrett_magic prime) in
  let r := barrett_modq_u32_dual n_vec1 n_vec2 m_vec p_vec in
  let divisible1 := vceqq_u32 (fst r) (vdupq_n_u32 0) in
  let divisible2 := vceqq_u32 (snd r) (vdupq_n_u32 0) in
  let is_prime_itself1 := vceqq_u32 n_vec1 p_vec in
  let is_prime_itself2 := vceqq_u32 n_vec2 p_vec in
  let divisible1 := vandq_u32 divisible1 (vmvnq_u32 is_prime_itself1) in
  let divisible2 := vandq_u32 divisible2 (vmvnq_u32 is_prime_itself2) in
  (vorrq_u32 (fst masks) divisible1, vorrq_u32 (snd masks) divisible2).

(** Both masks after the whole bank has been applied to a group. *)
Definition sieve_bank (n_vec1 n_vec2 : uint32x4_t) : uint32x4_t * uint32x4_t :=
  let masks := (vdupq_n_u32 0, vdupq_n_u32 0) in
  let masks := fold_left (sieve n_vec1 n_vec2) kSmallPrimes masks in
  fold_left (sieve n_vec1 n_vec2) kExtendedPrimes masks.

(** One of the two write-back loops: lanes [0..3] of [flags] decide the
    results at [base .. base + 3]. *)
Definition resolve_lanes
    (numbers : list Z) (flags : list Z) (base : nat) (results : list bool) : list bool :=
  fold_left
    (fun res j =>
       if flags !!! j =? 0
       then <[(base + j)%nat := is_prime_scalar (numbers !!! (base + j)%nat)]> res
       else <[(base + j)%nat := false]> res)
    (seq 0 4) results.

(** The vector pass over the group that starts at [i]. *)
Definition vector_pass (numbers : list Z) (results : list bool) (i : nat) : list bool :=
  let nums1 := map (fun j => wrap32 (numbers !!! (i + j)%nat)) (seq 0 4) in
  let nums2 := map (fun j => wrap32 (numbers !!! (i + 4 + j)%nat)) (seq 0 4) in
  let n_vec1 := vld1q_u32 nums1 in
  let n_vec2 := vld1q_u32 nums2 in
  let masks := sieve_bank n_vec1 n_vec2 in
  let composite_flags1 := vst1q_u32 (fst masks) in
  let composite_flags2 := vst1q_u32 (snd masks) in
  let results := resolve_lanes numbers composite_flags1 i results in
  resolve_lanes numbers composite_flags2 (i + 4) results.

(** The body of the group loop. *)
Definition group_body (numbers : list Z) (results : list bool) (i : nat) : list bool :=
  if can_use_neon numbers i
  then vector_pass numbers results i
  else process_scalar numbers results i 8.

(** [for (size_t i = 0; i + 8 <= count; i += 8)]: the test is the
    source's; the loop runs at most [count] times. *)
Fixpoint group_loop (fuel : nat) (numbers : list Z) (count i : nat)
    (results : list bool) : list bool :=
  match fuel with
  | O => results
  | S fuel' =>
      if (i + 8 <=? count)%nat
      then group_loop fuel' numbers count (i + 8) (group_body numbers results i)
      else results
  end.

Definition process_batch_simd_real_8lane
    (numbers : list Z) (results : list bool) (count : nat) : list bool :=
  let results := group_loop count numbers count 0 results in
  let remaining := (count mod 8)%nat in
  if (remaining =? 0)%nat then results
  else process_scalar numbers results (count - remaining) remaining.

(** [process(numbers, results)]: [results] is the caller's vector, of
    any length and contents; the value returned is that vector after
    the call. *)
Definition process (numbers : list Z) (results : list bool) : list bool :=
  let results := resize (length numbers) false results in
  if (16 <=? length numbers)%nat
  then process_batch_simd_real_8lane numbers results (length numbers)
  else process_scalar numbers results 0 (length numbers).

#[global] Arguments trial_iter : simpl never.

(** ** The scalar algorithm as the specification words it

    [n < 2] is not prime, [2] is prime, any other even [n] is
    composite, and an odd [n] is composite when one of the odd numbers
    from 3 up to [floor(sqrt n)] divides it. *)

(** The odd numbers [3, 5, ...] up to [s] inclusive. *)
Definition odd_divisors_upto (s : Z) : list Z :=
  map (fun k => 3 + 2 * Z.of_nat k) (seq 0 (Z.to_nat ((s - 1) / 2))).

Definition scalar_trial_division (n : Z) : bool :=
  if n <? 2 then false
  else if n =? 2 then true
  else if n mod 2 =? 0 then false
  else negb (existsb (fun d => n mod d =? 0) (odd_divisors_upto (Z.sqrt n))).

(** ** One lane of the group pass *)

(** The lane of [divisible1] (or [divisible2]) that [sieve] ORs into
    the mask for the prime [p]: the remainder test, with the
    self-equality exception applied. *)
Definition lane_divisible (n p : Z) : Z :=
  Z.land (if barrett_lane n (make_barrett_magic p) p =? 0 then all_ones else 0)
         (Z.lxor (if n =? p then all_ones else 0) all_ones).

(** The lane of the composite mask after the whole bank. *)
Definition lane_flag (n : Z) : Z :=
  fold_left (fun m p => Z.lor m (lane_divisible n p)) prime_bank 0.

(** All four lanes hold 32-bit values. *)
Definition lanes_uint32 (v : uint32x4_t) : Prop :=
  is_uint32 (q0 v) /\ is_uint32 (q1 v) /\ is_uint32 (q2 v) /\ is_uint32 (q3 v).

(** ** Sample inputs *)

(** Seventeen candidates: two full groups and a tail of one. *)
Definition sample_batch : list Z :=
  [1000000; 1000001; 1000002; 1000003; 53; 2; 91; 97;
   0; 1; 2809; 3127; 4294967295; 4294967291; 2147483648; 49; 1000033].

(** Sixteen candidates whose first group holds one above [UINT32_MAX]. *)
Definition mixed_batch : list Z :=
  [5; 7; 9; 4294967311; 11; 12; 13; 14;
   15; 16; 17; 18; 19; 20; 21; 22].

(** ** The engine with its group pass left open

    [process] and the two functions under it, with the body of the
    group loop taken as a parameter: the same text as [group_loop],
    [process_batch_simd_real_8lane] and [process], with [pass] where
    they have [group_body] (see [process_with_group_body]).  It shows
    where the engine runs a group pass and where it does not. *)




(** ** The command-line driver *)

(** What a run of [main] leaves behind: its return value and what it
    wrote to [std::cout] and [std::cerr]. *)
Record outcome := Outcome {
  exit_code : Z;
  cout : String.string;
  cerr : String.string
}.

Definition newline : String.string :=
  String.String (Ascii.ascii_of_nat 10) String.EmptyString.

(** [k] fill characters (spaces) in front of [s]. *)
Fixpoint fill (k : nat) (s : String.string) : String.string :=
  match k with
  | O => s
  | S k' => String.String (Ascii.ascii_of_nat 32) (fill k' s)
  end.

(** [std::setw(w) << s] with the default fill and adjustment: spaces
    on the left up to [w] characters, nothing cut off. *)
Definition setw (w : nat) (s : String.string) : String.string :=
  fill (w - String.length s) s.

Definition verdict_label (verdict : bool) : String.string :=
  if verdict then "prime"%string else "composite"%string.

(** One turn of the printing loop of [main]. *)
Definition report_line (n : Z) (verdict : bool) : String.string :=
  String.append (setw 12 (pretty.pretty n))
    (String.append " -> "%string
       (String.append (verdict_label verdict) newline)).

(** [main(argc, argv)], with [argc] the length of [argv].  [strtoull]
    is the C library's; its value is stored in a [uint64_t]. *)
Definition main (strtoull : String.string -> Z) (argv : list String.string) : outcome :=
  if (length argv <? 2)%nat then
    Outcome 1 ""%string
      (String.append "Usage: ./radix_simd <n1> <n2> ..."%string newline)
  else
    let numbers :=
      fold_left (fun nums i => nums ++ [wrap64 (strtoull (argv !!! i))])
                (seq 1 (length argv - 1)) [] in
    let results := process numbers [] in
    let out :=
      fold_left
        (fun o i => String.append o (report_line (numbers !!! i) (results !!! i)))
        (seq 0 (length numbers))
        (String.append "SIMD sieve results:"%string newline) in
    Outcome 0 out ""%string.

(** The text of a list of output lines, one after the other. *)
Fixpoint lines_text (lines : list String.string) : String.string :=
  match lines with
  | [] => ""%string
  | l :: lines' => String.append l (lines_text lines')
  end.

(** ** Mask values *)

(** A comparison result: all bits clear or all 32 bits set. *)
Definition is_mask (m : Z) : Prop := m = 0 \/ m = all_ones.

Definition lanes_mask (v : uint32x4_t) : Prop := forall j, is_mask (lane v j).

(** ** Outcomes of the reducer *)

(** The two ways a lane of the reducer can end on the candidate [n]:
    with the exact quotient and [n mod p], or with the quotient one
    too large and the wrapped value [2^32 + n mod p - 2p]. *)
Definition barrett_outcome (p n r : Z) : Prop :=
  (barrett_quotient n (make_barrett_magic p) = n / p /\ r = n mod p) \/
  (barrett_quotient n (make_barrett_magic p) = n / p + 1 /\
   r = 2 ^ 32 + n mod p - 2 * p).

(** An odd square root of [2 ^ 64 - 7] modulo [2 ^ 64]: the loop test
    [i * i <= n] fails there for every [n <= 2 ^ 64 - 8]. *)
Definition wrapped_exit : Z := 1852311383259529397.

(** * Properties *)

(** Linear arithmetic with the quotients and remainders (parities,
    mostly) turned into their defining equations first. *)
Ltac mod_lia := Z.div_mod_to_equations; lia.

(** ** Machine arithmetic *)

Section MachineFacts.

Lemma wrap32_small (x : Z) : 0 <= x < 2 ^ 32 -> wrap32 x = x.
Proof. intros H. unfold wrap32. apply Z.mod_small. exact H. Qed.

Lemma wrap64_small (x : Z) : 0 <= x < 2 ^ 64 -> wrap64 x = x.
Proof. intros H. unfold wrap64. apply Z.mod_small. exact H. Qed.

Lemma wrap32_range (x : Z) : 0 <= wrap32 x < 2 ^ 32.
Proof. unfold wrap32. apply Z.mod_pos_bound. lia. Qed.

Lemma wrap32_sub_idemp (a b : Z) : wrap32 (a - wrap32 b) = wrap32 (a - b).
Proof. unfold wrap32. apply Zminus_mod_idemp_r. Qed.

Lemma wrap32_neg (d : Z) : - 2 ^ 32 <= d < 0 -> wrap32 d = 2 ^ 32 + d.
Proof.
  intros H. unfold wrap32.
  symmetry. apply (Z.mod_unique_pos d (2 ^ 32) (-1) (2 ^ 32 + d)); lia.
Qed.

Lemma land_all_ones (p : Z) : 0 <= p < 2 ^ 32 -> Z.land all_ones p = p.
Proof.
  intros H. rewrite Z.land_comm.
  change all_ones with (Z.ones 32).
  rewrite Z.land_ones by lia. apply Z.mod_small. exact H.
Qed.

End MachineFacts.

(** ** Barrett reducer *)

Section BarrettFacts.

Variable p : Z.
Hypothesis p_range : 2 <= p < 2 ^ 31.

Let magic := make_barrett_magic p.

(** The magic constant is [ceil(2^32 / p)] and fits 32 bits. *)
Lemma magic_value : magic = (2 ^ 32 + p - 1) / p.
Proof.
  unfold magic, make_barrett_magic.
  change (wrap64 (Z.shiftl 1 32)) with (2 ^ 32).
  rewrite (wrap64_small (2 ^ 32 + p)) by lia.
  rewrite (wrap64_small (2 ^ 32 + p - 1)) by lia.
  apply wrap32_small.
  split.
  - apply Z.div_pos; lia.
  - apply Z.div_lt_upper_bound; lia.
Qed.

Lemma magic_bounds : 2 ^ 32 <= magic * p < 2 ^ 32 + p /\ 0 < magic < 2 ^ 32.
Proof.
  rewrite magic_value.
  pose proof (Z.div_mod (2 ^ 32 + p - 1) p ltac:(lia)) as Hdm.
  pose proof (Z.mod_pos_bound (2 ^ 32 + p - 1) p ltac:(lia)) as Hm.
  set (m := (2 ^ 32 + p - 1) / p) in *.
  split; [lia | nia].
Qed.

Variable n : Z.
Hypothesis n_range : 0 <= n < 2 ^ 32.

Let q := barrett_quotient n magic.

Lemma quotient_value : q = n * magic / 2 ^ 32.
Proof.
  unfold q, barrett_quotient.
  destruct magic_bounds as [_ Hm].
  rewrite (wrap64_small (n * magic)) by nia.
  rewrite Z.shiftr_div_pow2 by lia.
  apply wrap32_small. split.
  - apply Z.div_pos; nia.
  - apply Z.div_lt_upper_bound; nia.
Qed.

(** The estimate is [n / p] or one more: [q * p] is within [p] of [n]
    on either side. *)
Lemma quotient_error : n - p < q * p < n + p.
Proof.
  rewrite quotient_value.
  destruct magic_bounds as [Hmp Hm].
  pose proof (Z.div_mod (n * magic) (2 ^ 32) ltac:(lia)) as Hdm.
  pose proof (Z.mod_pos_bound (n * magic) (2 ^ 32) ltac:(lia)) as Hr.
  set (k := n * magic / 2 ^ 32) in *.
  set (r := (n * magic) mod 2 ^ 32) in *.
  assert (Hprod : n * magic * p = 2 ^ 32 * (k * p) + r * p) by (rewrite Hdm at 1; ring).
  assert (Hup : n * (magic * p) <= n * 2 ^ 32 + n * p) by nia.
  assert (Hlo : n * 2 ^ 32 <= n * (magic * p)) by nia.
  split; nia.
Qed.

Lemma quotient_range : 0 <= q < 2 ^ 32.
Proof. unfold q, barrett_quotient. apply wrap32_range. Qed.

(** The lane result when the estimate is exact. *)
Lemma barrett_lane_exact :
  q * p <= n -> barrett_lane n magic p = n mod p.
Proof.
  intros Hle. pose proof quotient_error as He. pose proof quotient_range as Hq.
  unfold barrett_lane. fold q. cbv zeta.
  rewrite wrap32_sub_idemp.
  rewrite (wrap32_small (n - q * p)) by lia.
  destruct (Z.geb_spec (n - q * p) p) as [Hge | Hlt]; [lia |].
  rewrite Z.land_0_l, Z.sub_0_r.
  rewrite wrap32_small by lia.
  apply (Z.mod_unique_pos n p q (n - q * p)); lia.
Qed.

(** The lane result when the estimate is one too large. *)
Lemma barrett_lane_overshoot :
  n < q * p -> barrett_lane n magic p = 2 ^ 32 + n mod p - 2 * p.
Proof.
  intros Hlt. pose proof quotient_error as He. pose proof quotient_range as Hq.
  assert (Hmod : n mod p = n - q * p + p).
  { symmetry. apply (Z.mod_unique_pos n p (q - 1) (n - q * p + p)); lia. }
  unfold barrett_lane. fold q. cbv zeta.
  rewrite wrap32_sub_idemp.
  rewrite (wrap32_neg (n - q * p)) by lia.
  destruct (Z.geb_spec (2 ^ 32 + (n - q * p)) p) as [Hge | Hlt']; [| lia].
  rewrite land_all_ones by lia.
  rewrite wrap32_small by lia.
  lia.
Qed.

(** No overshoot on a multiple of [p]. *)
Lemma quotient_exact_on_multiples : n mod p = 0 -> q * p = n.
Proof.
  intros H0. pose proof quotient_error as He.
  pose proof (Z.div_mod n p ltac:(lia)) as Hdm. rewrite H0 in Hdm.
  assert (Hk : q - n / p = 0) by nia.
  nia.
Qed.

Lemma barrett_lane_zero_iff : barrett_lane n magic p = 0 <-> n mod p = 0.
Proof.
  pose proof (Z.mod_pos_bound n p ltac:(lia)) as Hm.
  destruct (Z.le_gt_cases (q * p) n) as [Hle | Hgt].
  - rewrite barrett_lane_exact by exact Hle. reflexivity.
  - rewrite barrett_lane_overshoot by lia.
    split; intros H; [lia |].
    apply quotient_exact_on_multiples in H. lia.
Qed.

Lemma barrett_lane_range : 0 <= barrett_lane n magic p < 2 ^ 32.
Proof. unfold barrett_lane. cbv zeta. apply wrap32_range. Qed.

End BarrettFacts.

(** ** Scalar trial division *)

Section TrialLoopFacts.

Lemma trial_steps_add (a b : nat) (n i : Z) :
  trial_steps (a + b) n i =
  match trial_steps a n i with
  | inl i' => trial_steps b n i'
  | inr v => inr v
  end.
Proof.
  revert i. induction a as [| a IH]; intros i; simpl.
  - reflexivity.
  - destruct (trial_step n i) as [i' | v]; [apply IH | reflexivity].
Qed.

(** [trial_iter k] makes up to [2 ^ k] turns. *)
Lemma trial_iter_steps (k : nat) (n i : Z) :
  trial_iter k n i = trial_steps (2 ^ k) n i.
Proof.
  revert i. induction k as [| k IH]; intros i.
  - change (trial_iter 0 n i) with (trial_step n i).
    change (trial_steps (2 ^ 0) n i) with (trial_steps 1 n i). simpl.
    destruct (trial_step n i); reflexivity.
  - change (trial_iter (S k) n i) with
      (match trial_iter k n i with
       | inl i' => trial_iter k n i'
       | inr b => inr b
       end).
    replace (2 ^ S k)%nat with (2 ^ k + 2 ^ k)%nat by (rewrite Nat.pow_succ_r'; lia).
    rewrite trial_steps_add, IH.
    destruct (trial_steps (2 ^ k) n i) as [i' | v]; [apply IH | reflexivity].
Qed.

Lemma trial_steps_more (m m' : nat) (n i : Z) (v : bool) :
  trial_steps m n i = inr v -> (m <= m')%nat -> trial_steps m' n i = inr v.
Proof.
  intros Hv Hle.
  replace m' with (m + (m' - m))%nat by lia.
  rewrite trial_steps_add, Hv. reflexivity.
Qed.

Variable n : Z.
Hypothesis n_range : 0 <= n < 2 ^ 64.

(** An odd divisor [d] with [d * d <= n] ahead of [i] stops the loop
    with verdict [false]: up to [d] the products do not wrap. *)
Lemma trial_steps_divisor (d : Z) (m : nat) (i : Z) :
  d mod 2 = 1 -> d * d <= n -> n mod d = 0 ->
  i mod 2 = 1 -> 3 <= i <= d -> d - i < 2 * Z.of_nat m ->
  trial_steps m n i = inr false.
Proof.
  intros Hd Hdd Hdiv. revert i.
  induction m as [| m IH]; intros i Hi Hrange Hfuel; [lia |].
  simpl. unfold trial_step.
  rewrite (wrap64_small (i * i)) by nia.
  destruct (Z.leb_spec (i * i) n) as [_ | Hgt]; [| nia].
  destruct (Z.eqb_spec (n mod i) 0) as [| Hnz]; [reflexivity |].
  assert (i <> d) by congruence.
  assert (d < 2 ^ 64) by nia.
  assert (i + 2 <= d) by mod_lia.
  rewrite wrap64_small by lia.
  apply IH; [mod_lia | lia | lia].
Qed.

(** With no divisor below an odd [x] whose wrapped square exceeds
    [n], the loop leaves at [x] at the latest, with verdict [true]. *)
Lemma trial_steps_no_divisor (x : Z) (m : nat) (i : Z) :
  x mod 2 = 1 -> x < 2 ^ 64 -> n < wrap64 (x * x) ->
  i mod 2 = 1 -> 3 <= i <= x ->
  (forall j, i <= j < x -> n mod j <> 0) ->
  x - i < 2 * Z.of_nat m ->
  trial_steps m n i = inr true.
Proof.
  intros Hx Hx64 Hsq. revert i.
  induction m as [| m IH]; intros i Hi Hrange Hnd Hfuel; [lia |].
  simpl. unfold trial_step.
  destruct (Z.leb_spec (wrap64 (i * i)) n) as [Hle | _]; [| reflexivity].
  assert (i <> x) by (intros ->; lia).
  destruct (Z.eqb_spec (n mod i) 0) as [H0 | _]; [exfalso; apply (Hnd i); [lia | exact H0] |].
  assert (i + 2 <= x) by mod_lia.
  rewrite wrap64_small by lia.
  apply IH; [mod_lia | lia | | lia].
  intros j Hj. apply Hnd. lia.
Qed.

(** The loop always leaves: on an odd [n] it stops at [i = n] at the
    latest, where [n % i == 0], whatever the wrapped squares are. *)
Lemma trial_steps_returns (m : nat) (i : Z) :
  n mod 2 = 1 -> i mod 2 = 1 -> 3 <= i <= n -> n - i < 2 * Z.of_nat m ->
  exists v, trial_steps m n i = inr v.
Proof.
  intros Hn. revert i.
  induction m as [| m IH]; intros i Hi Hrange Hfuel; [lia |].
  simpl. unfold trial_step.
  destruct (wrap64 (i * i) <=? n); [| eexists; reflexivity].
  destruct (Z.eqb_spec (n mod i) 0) as [| Hnz]; [eexists; reflexivity |].
  assert (i <> n) by (intros ->; rewrite Z_mod_same_full in Hnz; lia).
  assert (i + 2 <= n) by mod_lia.
  rewrite wrap64_small by lia.
  apply IH; [mod_lia | lia | lia].
Qed.

End TrialLoopFacts.

Section PrimalityFacts.

Lemma pow64_of_nat : Z.of_nat (2 ^ 64) = 2 ^ 64.
Proof. rewrite Nat2Z.inj_pow. reflexivity. Qed.

(** On an odd [n >= 3] the verdict is what the loop returns. *)
Lemma is_prime_scalar_odd (n : Z) (v : bool) :
  3 <= n -> n mod 2 = 1 ->
  trial_steps (2 ^ 64) n 3 = inr v -> is_prime_scalar n = v.
Proof.
  intros Hn Hodd Hv. unfold is_prime_scalar, is_prime_scalar_run.
  destruct (Z.ltb_spec n 2) as [| _]; [lia |].
  destruct (Z.eqb_spec (n mod 2) 0) as [| _]; [lia |].
  rewrite trial_iter_steps, Hv. reflexivity.
Qed.

(** An odd composite has an odd divisor at or below its square root. *)
Lemma composite_odd_divisor (n : Z) :
  3 <= n -> n mod 2 = 1 -> ~ Z.prime n ->
  exists d, d mod 2 = 1 /\ 3 <= d /\ d * d <= n /\ n mod d = 0.
Proof.
  intros Hn Hodd Hnp.
  destruct (not_prime_divide n ltac:(lia)) as (a & Ha & b & Hb).
  { intros Hp. apply Hnp, prime_alt, Hp. }
  assert (Hb1 : 1 < b) by nia.
  assert (Hoa : a mod 2 = 1).
  { destruct (Z.eq_dec (a mod 2) 0) as [E |]; [| mod_lia].
    exfalso. apply Z.mod_divide in E; [| lia]. destruct E as [a' ->].
    rewrite Hb in Hodd. rewrite Z.mul_assoc, Z_mod_mult in Hodd. lia. }
  assert (Hob : b mod 2 = 1).
  { destruct (Z.eq_dec (b mod 2) 0) as [E |]; [| mod_lia].
    exfalso. apply Z.mod_divide in E; [| lia]. destruct E as [b' ->].
    rewrite Hb in Hodd.
    replace (b' * 2 * a) with (b' * a * 2) in Hodd by ring.
    rewrite Z_mod_mult in Hodd. lia. }
  destruct (Z.le_gt_cases a b) as [Hab | Hba].
  - exists a. repeat split; [exact Hoa | mod_lia | nia |].
    rewrite Hb. apply Z_mod_mult.
  - exists b. repeat split; [exact Hob | mod_lia | nia |].
    rewrite Hb, Z.mul_comm. apply Z_mod_mult.
Qed.

(** A prime has no divisor strictly between 1 and itself. *)
Lemma prime_no_divisor (n j : Z) :
  Z.prime n -> 1 < j < n -> n mod j <> 0.
Proof.
  intros [_ Hp] Hj H0. apply (Hp j Hj). apply Z.mod_divide; [lia | exact H0].
Qed.

Lemma wrapped_exit_square : wrap64 (wrapped_exit * wrapped_exit) = 2 ^ 64 - 7.
Proof. reflexivity. Qed.

(** Where the loop leaves on an odd [n] without divisors: an odd [x]
    no larger than [n] whose wrapped square exceeds [n]. *)
Lemma exit_point (n : Z) :
  3 <= n <= 2 ^ 64 - 8 -> n mod 2 = 1 ->
  exists x, x mod 2 = 1 /\ 3 <= x <= n /\ n < wrap64 (x * x).
Proof.
  intros Hn Hodd.
  destruct (Z.lt_ge_cases n ((2 ^ 32 - 1) * (2 ^ 32 - 1))) as [Hsmall | Hbig].
  - pose proof (Z.sqrt_spec n ltac:(lia)) as Hs.
    pose proof (Z.sqrt_nonneg n) as Hs0.
    set (s := Z.sqrt n) in *. cbv zeta in Hs.
    assert (Hs32 : s <= 2 ^ 32 - 2) by nia.
    destruct (Z.eq_dec ((s + 1) mod 2) 1) as [Ho | He].
    + exists (s + 1). repeat split; [exact Ho | mod_lia | nia |].
      rewrite wrap64_small by nia. unfold Z.succ in Hs. lia.
    + exists (s + 2). repeat split; [mod_lia | lia | nia |].
      assert (s + 2 <= 2 ^ 32 - 1) by mod_lia.
      rewrite wrap64_small by nia. unfold Z.succ in Hs. nia.
  - exists wrapped_exit. rewrite wrapped_exit_square. unfold wrapped_exit.
    split; [reflexivity | lia].
Qed.

(** The odd values above [2 ^ 64 - 8] are all composite. *)
Lemma top_values_composite (n : Z) :
  2 ^ 64 - 8 < n < 2 ^ 64 -> n mod 2 = 1 -> ~ Z.prime n.
Proof.
  intros Hn Hodd [_ Hp].
  assert (Hcases : n = 2 ^ 64 - 7 \/ n = 2 ^ 64 - 5 \/ n = 2 ^ 64 - 3 \/ n = 2 ^ 64 - 1)
    by mod_lia.
  destruct Hcases as [-> | [-> | [-> | ->]]].
  - apply (Hp 3); [lia |]. apply Z.mod_divide; [lia | reflexivity].
  - apply (Hp 11); [lia |]. apply Z.mod_divide; [lia | reflexivity].
  - apply (Hp 13); [lia |]. apply Z.mod_divide; [lia | reflexivity].
  - apply (Hp 3); [lia |]. apply Z.mod_divide; [lia | reflexivity].
Qed.

Lemma is_prime_scalar_of_prime (n : Z) :
  is_uint64 n -> Z.prime n -> is_prime_scalar n = true.
Proof.
  intros Hn Hp. pose proof Hp as [H1 Hnd]. unfold is_uint64 in Hn.
  destruct (Z.eq_dec (n mod 2) 0) as [He | Ho].
  - assert (n = 2).
    { destruct (Z.eq_dec n 2) as [| Hne]; [assumption | exfalso].
      apply (Hnd 2); [lia |]. apply Z.mod_divide; [lia | exact He]. }
    subst n. reflexivity.
  - assert (Hodd : n mod 2 = 1) by mod_lia.
    assert (H3 : 3 <= n) by mod_lia.
    assert (Htop : n <= 2 ^ 64 - 8).
    { destruct (Z.le_gt_cases n (2 ^ 64 - 8)) as [| Hgt]; [assumption | exfalso].
      apply (top_values_composite n); [lia | exact Hodd | exact Hp]. }
    destruct (exit_point n ltac:(lia) Hodd) as (x & Hx & Hxn & Hsq).
    apply is_prime_scalar_odd; [exact H3 | exact Hodd |].
    apply (trial_steps_no_divisor n Hn x); try first [assumption | reflexivity | lia].
    + intros j Hj. apply prime_no_divisor; [exact Hp | lia].
    + rewrite pow64_of_nat. lia.
Qed.

Lemma is_prime_scalar_of_composite (n : Z) :
  is_uint64 n -> ~ Z.prime n -> is_prime_scalar n = false.
Proof.
  intros Hn Hnp. unfold is_uint64 in Hn.
  destruct (Z.lt_ge_cases n 2) as [Hlt | Hge].
  { unfold is_prime_scalar, is_prime_scalar_run.
    destruct (Z.ltb_spec n 2); [reflexivity | lia]. }
  destruct (Z.eq_dec (n mod 2) 0) as [He | Ho].
  - unfold is_prime_scalar, is_prime_scalar_run.
    destruct (Z.ltb_spec n 2); [reflexivity |].
    rewrite He. change (0 =? 0) with true. cbv iota.
    destruct (Z.eqb_spec n 2) as [-> |]; [| reflexivity].
    exfalso. apply Hnp, Z.prime_2.
  - assert (Hodd : n mod 2 = 1) by mod_lia.
    assert (H3 : 3 <= n) by mod_lia.
    destruct (composite_odd_divisor n H3 Hodd Hnp) as (d & Hd & Hd3 & Hdd & Hdiv).
    apply is_prime_scalar_odd; [exact H3 | exact Hodd |].
    apply (trial_steps_divisor n Hn d); try first [assumption | reflexivity | lia].
    rewrite pow64_of_nat. nia.
Qed.

Lemma prime_decidable (n : Z) : Z.prime n \/ ~ Z.prime n.
Proof.
  destruct (prime_dec n) as [Hp | Hnp].
  - left. apply prime_alt, Hp.
  - right. intros Hp. apply Hnp, prime_alt, Hp.
Qed.

Lemma is_prime_scalar_iff_prime (n : Z) :
  is_uint64 n -> (is_prime_scalar n = true <-> Z.prime n).
Proof.
  intros Hn. split.
  - intros Ht. destruct (prime_decidable n) as [Hp | Hnp]; [exact Hp |].
    rewrite (is_prime_scalar_of_composite n Hn Hnp) in Ht. discriminate.
  - apply is_prime_scalar_of_prime, Hn.
Qed.

Lemma odd_divisors_upto_spec (s d : Z) :
  In d (odd_divisors_upto s) <-> d mod 2 = 1 /\ 3 <= d <= s.
Proof.
  unfold odd_divisors_upto. rewrite in_map_iff. split.
  - intros (k & <- & Hk%in_seq). split; mod_lia.
  - intros [Hodd Hd]. exists (Z.to_nat ((d - 3) / 2)). split.
    + rewrite Z2Nat.id; mod_lia.
    + apply in_seq. mod_lia.
Qed.

Lemma scalar_trial_division_iff_prime (n : Z) :
  scalar_trial_division n = true <-> Z.prime n.
Proof.
  unfold scalar_trial_division.
  destruct (Z.ltb_spec n 2) as [Hlt | Hge].
  { split; [discriminate | intros [H1 _]; lia]. }
  destruct (Z.eqb_spec n 2) as [-> | Hn2].
  { split; [intros _; apply Z.prime_2 | reflexivity]. }
  destruct (Z.eqb_spec (n mod 2) 0) as [He | Ho].
  { split; [discriminate | intros [_ Hnd]; exfalso].
    apply (Hnd 2); [lia |]. apply Z.mod_divide; [lia | exact He]. }
  assert (Hodd : n mod 2 = 1) by mod_lia.
  rewrite negb_true_iff. split.
  - intros Hnone. destruct (prime_decidable n) as [Hp | Hnp]; [exact Hp | exfalso].
    destruct (composite_odd_divisor n ltac:(lia) Hodd Hnp) as (d & Hd & Hd3 & Hdd & Hdiv).
    assert (Hex : existsb (fun d => n mod d =? 0) (odd_divisors_upto (Z.sqrt n)) = true).
    { apply existsb_exists. exists d. split.
      - apply odd_divisors_upto_spec. split; [exact Hd |]. split; [exact Hd3 |].
        apply Z.sqrt_le_square; lia.
      - apply Z.eqb_eq, Hdiv. }
    congruence.
  - intros Hp.
    destruct (existsb _ _) eqn:Hex; [exfalso | reflexivity].
    apply existsb_exists in Hex as (d & [Hd Hrange]%odd_divisors_upto_spec & Hdiv%Z.eqb_eq).
    pose proof (Z.sqrt_lt_lin n ltac:(lia)).
    apply (prime_no_divisor n d Hp); [lia | exact Hdiv].
Qed.

(** The capped run returns: the cap of [2 ^ 64] turns is not hit. *)
Lemma is_prime_scalar_run_some (n : Z) :
  is_uint64 n -> is_prime_scalar_run 64 n = Some (is_prime_scalar n).
Proof.
  intros Hn. unfold is_prime_scalar.
  enough (exists v, is_prime_scalar_run 64 n = Some v) as [v ->] by reflexivity.
  unfold is_prime_scalar_run, is_uint64 in *.
  destruct (n <? 2) eqn:Hlt; [eexists; reflexivity |]. apply Z.ltb_ge in Hlt.
  destruct (Z.eqb_spec (n mod 2) 0) as [| Ho]; [eexists; reflexivity |].
  rewrite trial_iter_steps.
  destruct (trial_steps_returns n Hn (2 ^ 64) 3) as [v ->];
    [mod_lia | reflexivity | mod_lia | rewrite pow64_of_nat; lia |].
  eexists; reflexivity.
Qed.

End PrimalityFacts.

(** ** The vector pass, lane by lane *)

Section LaneFacts.

Lemma lanes_uint32_lane (v : uint32x4_t) (j : nat) :
  lanes_uint32 v -> is_uint32 (lane v j).
Proof.
  intros (H0 & H1 & H2 & H3).
  destruct j as [| [| [| j]]]; assumption.
Qed.

(** No cross-lane interaction: every lane of either result register
    is [barrett_lane] of the same lane of the inputs. *)
Lemma barrett_dual_lane (n_vec1 n_vec2 magic_vec p_vec : uint32x4_t) (j : nat) :
  lane (fst (barrett_modq_u32_dual n_vec1 n_vec2 magic_vec p_vec)) j
    = barrett_lane (lane n_vec1 j) (lane magic_vec j) (lane p_vec j) /\
  lane (snd (barrett_modq_u32_dual n_vec1 n_vec2 magic_vec p_vec)) j
    = barrett_lane (lane n_vec2 j) (lane magic_vec j) (lane p_vec j).
Proof.
  destruct n_vec1, n_vec2, magic_vec, p_vec.
  destruct j as [| [| [| j]]]; split; reflexivity.
Qed.

Lemma vdupq_lane (x : Z) (j : nat) : lane (vdupq_n_u32 x) j = x.
Proof. destruct j as [| [| [| j]]]; reflexivity. Qed.

Lemma sieve_lane (n_vec1 n_vec2 : uint32x4_t)
    (masks : uint32x4_t * uint32x4_t) (p : Z) (j : nat) :
  lane (fst (sieve n_vec1 n_vec2 masks p)) j
    = Z.lor (lane (fst masks) j) (lane_divisible (lane n_vec1 j) p) /\
  lane (snd (sieve n_vec1 n_vec2 masks p)) j
    = Z.lor (lane (snd masks) j) (lane_divisible (lane n_vec2 j) p).
Proof.
  destruct n_vec1, n_vec2, masks as [[] []].
  destruct j as [| [| [| j]]]; split; reflexivity.
Qed.

Lemma sieve_fold_lane (n_vec1 n_vec2 : uint32x4_t) (ps : list Z)
    (masks : uint32x4_t * uint32x4_t) (j : nat) :
  lane (fst (fold_left (sieve n_vec1 n_vec2) ps masks)) j
    = fold_left (fun m p => Z.lor m (lane_divisible (lane n_vec1 j) p)) ps
                (lane (fst masks) j) /\
  lane (snd (fold_left (sieve n_vec1 n_vec2) ps masks)) j
    = fold_left (fun m p => Z.lor m (lane_divisible (lane n_vec2 j) p)) ps
                (lane (snd masks) j).
Proof.
  revert masks. induction ps as [| p ps IH]; intros masks.
  - split; reflexivity.
  - cbn [fold_left].
    destruct (IH (sieve n_vec1 n_vec2 masks p)) as [IH1 IH2].
    destruct (sieve_lane n_vec1 n_vec2 masks p j) as [S1 S2].
    rewrite IH1, IH2, S1, S2. split; reflexivity.
Qed.

Lemma sieve_bank_lane (n_vec1 n_vec2 : uint32x4_t) (j : nat) :
  lane (fst (sieve_bank n_vec1 n_vec2)) j = lane_flag (lane n_vec1 j) /\
  lane (snd (sieve_bank n_vec1 n_vec2)) j = lane_flag (lane n_vec2 j).
Proof.
  unfold sieve_bank. cbv zeta. rewrite <- fold_left_app.
  fold prime_bank.
  destruct (sieve_fold_lane n_vec1 n_vec2 prime_bank
              (vdupq_n_u32 0, vdupq_n_u32 0) j) as [F1 F2].
  rewrite F1, F2. cbn [fst snd]. rewrite vdupq_lane.
  unfold lane_flag. split; reflexivity.
Qed.

Lemma prime_bank_range (p : Z) : In p prime_bank -> 2 <= p < 2 ^ 31.
Proof.
  intros Hin.
  assert (Hall : Forall (fun p => 2 <= p < 2 ^ 31) prime_bank)
    by (repeat constructor; lia).
  rewrite Forall_forall in Hall. apply Hall, Hin.
Qed.

Lemma lane_divisible_spec (n p : Z) :
  2 <= p < 2 ^ 31 -> is_uint32 n ->
  lane_divisible n p = if (n mod p =? 0) && negb (n =? p) then all_ones else 0.
Proof.
  intros Hp Hn. unfold lane_divisible.
  pose proof (barrett_lane_zero_iff p Hp n Hn) as Hz.
  destruct (Z.eqb_spec (barrett_lane n (make_barrett_magic p) p) 0) as [E | E];
    destruct (Z.eqb_spec (n mod p) 0) as [E' | E'];
    try (exfalso; tauto);
    destruct (n =? p); reflexivity.
Qed.

Lemma fold_lor_zero (f : Z -> Z) (ps : list Z) (m : Z) :
  fold_left (fun m p => Z.lor m (f p)) ps m = 0 <->
  m = 0 /\ forall p, In p ps -> f p = 0.
Proof.
  revert m. induction ps as [| p ps IH]; intros m; cbn [fold_left].
  - split; [intros ->; split; [reflexivity | intros p []] | intros [-> _]; reflexivity].
  - rewrite IH, Z.lor_eq_0_iff. split.
    + intros [[Hm Hp] Hps]. split; [exact Hm |].
      intros p' [<- | Hin]; [exact Hp | apply Hps, Hin].
    + intros [Hm Hall]. repeat split; [exact Hm | apply Hall; left; reflexivity |].
      intros p' Hin. apply Hall. right. exact Hin.
Qed.

(** A lane's flag is raised exactly when a bank prime other than the
    candidate itself divides the candidate. *)
Lemma lane_flag_spec (n : Z) :
  is_uint32 n ->
  (lane_flag n <> 0 <-> exists p, In p prime_bank /\ (p | n) /\ n <> p).
Proof.
  intros Hn. unfold lane_flag. split.
  - intros Hnz.
    assert (Hex : Exists (fun p => lane_divisible n p <> 0) prime_bank).
    { apply not_Forall_Exists; [intros p; apply Z.eq_dec with (x := lane_divisible n p) |].
      intros Hall. apply Hnz. apply fold_lor_zero. split; [reflexivity |].
      intros p Hin. rewrite Forall_forall in Hall.
      apply Hall, Hin. }
    apply Exists_exists in Hex as (p & Hin & Hp).
    exists p. split; [exact Hin |].
    rewrite (lane_divisible_spec n p (prime_bank_range p Hin) Hn) in Hp.
    destruct (Z.eqb_spec (n mod p) 0) as [E |]; [| contradiction].
    destruct (Z.eqb_spec n p) as [| Hne]; [contradiction |].
    split; [| exact Hne].
    apply Z.mod_divide; [pose proof (prime_bank_range p Hin); lia | exact E].
  - intros (p & Hin & Hdiv & Hne) Hz.
    apply fold_lor_zero in Hz as [_ Hz]. specialize (Hz p Hin).
    pose proof (prime_bank_range p Hin) as Hp.
    rewrite (lane_divisible_spec n p Hp Hn) in Hz.
    apply Z.mod_divide in Hdiv; [| lia].
    rewrite Hdiv in Hz. change (0 =? 0) with true in Hz.
    destruct (Z.eqb_spec n p); [contradiction | discriminate].
Qed.

(** A raised flag is never wrong: the scalar test agrees. *)
Lemma lane_flag_sound (n : Z) :
  is_uint32 n -> lane_flag n <> 0 -> is_prime_scalar n = false.
Proof.
  intros Hn Hflag.
  apply lane_flag_spec in Hflag as (p & Hin & [k Hk] & Hne); [| exact Hn].
  pose proof (prime_bank_range p Hin) as Hp. unfold is_uint32 in Hn.
  apply is_prime_scalar_of_composite; [unfold is_uint64; lia |].
  intros [H1 Hnd]. apply (Hnd p).
  - split; [lia |]. assert (1 <= k) by nia. nia.
  - exists k. exact Hk.
Qed.

End LaneFacts.

(** ** The arrays: what [process_scalar] writes *)

Section ScalarFill.

Lemma fold_left_ext_in {A B : Type} (f g : A -> B -> A) (l : list B) (a : A) :
  (forall a x, In x l -> f a x = g a x) -> fold_left f l a = fold_left g l a.
Proof.
  revert a. induction l as [| x l IH]; intros a Heq; cbn [fold_left].
  - reflexivity.
  - rewrite (Heq a x) by (left; reflexivity).
    apply IH. intros a' x' Hin. apply Heq. right. exact Hin.
Qed.

Lemma fold_seq_shift {A : Type} (g : nat -> A -> A) (c s t : nat) (r : A) :
  fold_left (fun res i => g (t + i)%nat res) (seq s c) r
  = fold_left (fun res i => g i res) (seq (t + s) c) r.
Proof.
  revert s r. induction c as [| c IH]; intros s r; cbn [seq fold_left].
  - reflexivity.
  - rewrite IH. replace (t + S s)%nat with (S (t + s)) by lia. reflexivity.
Qed.

Variable numbers : list Z.

(** The indices [base .. base + count - 1] are written in order. *)
Lemma process_scalar_seq (results : list bool) (base count : nat) :
  process_scalar numbers results base count
  = fold_left (fun res k => <[k := is_prime_scalar (numbers !!! k)]> res)
              (seq base count) results.
Proof.
  unfold process_scalar.
  rewrite (fold_seq_shift
             (fun k res => <[k := is_prime_scalar (numbers !!! k)]> res)
             count 0 base results).
  rewrite Nat.add_0_r. reflexivity.
Qed.

Lemma process_scalar_app (results : list bool) (base a b : nat) :
  process_scalar numbers results base (a + b)
  = process_scalar numbers (process_scalar numbers results base a) (base + a) b.
Proof. rewrite !process_scalar_seq, seq_app, fold_left_app. reflexivity. Qed.

Lemma process_scalar_0 (results : list bool) (base : nat) :
  process_scalar numbers results base 0 = results.
Proof. reflexivity. Qed.

Lemma process_scalar_S (results : list bool) (base count : nat) :
  process_scalar numbers results base (S count)
  = <[(base + count)%nat := is_prime_scalar (numbers !!! (base + count)%nat)]>
      (process_scalar numbers results base count).
Proof.
  rewrite !process_scalar_seq, seq_S, fold_left_app. reflexivity.
Qed.

Lemma process_scalar_length (results : list bool) (base count : nat) :
  length (process_scalar numbers results base count) = length results.
Proof.
  induction count as [| count IH].
  - reflexivity.
  - rewrite process_scalar_S, length_insert. exact IH.
Qed.

Lemma process_scalar_lookup_in (results : list bool) (base count k : nat) :
  (base <= k < base + count)%nat -> (k < length results)%nat ->
  process_scalar numbers results base count !! k
  = Some (is_prime_scalar (numbers !!! k)).
Proof.
  intros Hk Hlen. induction count as [| count IH]; [lia |].
  rewrite process_scalar_S.
  destruct (decide (k = base + count)%nat) as [-> | Hne].
  - apply list_lookup_insert_eq. rewrite process_scalar_length. exact Hlen.
  - rewrite list_lookup_insert_ne by congruence. apply IH. lia.
Qed.

Lemma process_scalar_lookup_out (results : list bool) (base count k : nat) :
  ~ (base <= k < base + count)%nat ->
  process_scalar numbers results base count !! k = results !! k.
Proof.
  intros Hk. induction count as [| count IH]; [reflexivity |].
  rewrite process_scalar_S.
  rewrite list_lookup_insert_ne by lia. apply IH. lia.
Qed.

(** Filling a result vector of the right length from index 0 gives
    the scalar verdicts of all candidates, in order. *)
Lemma process_scalar_all (results : list bool) :
  length results = length numbers ->
  process_scalar numbers results 0 (length numbers) = is_prime_scalar <$> numbers.
Proof.
  intros Hlen. apply list_eq. intros k.
  rewrite list_lookup_fmap.
  destruct (decide (k < length numbers)%nat) as [Hlt | Hge].
  - rewrite process_scalar_lookup_in by lia.
    rewrite (list_lookup_lookup_total_lt numbers k Hlt). reflexivity.
  - rewrite process_scalar_lookup_out by lia.
    rewrite (lookup_ge_None_2 results k) by lia.
    rewrite (lookup_ge_None_2 numbers k) by lia. reflexivity.
Qed.

End ScalarFill.

(** ** One group and the group loop *)

Section GroupFacts.

Variable numbers : list Z.

Lemma can_use_neon_true (i : nat) :
  can_use_neon numbers i = true <->
  forall j, (j < 8)%nat -> numbers !!! (i + j)%nat <= UINT32_MAX.
Proof.
  unfold can_use_neon. rewrite forallb_forall. split.
  - intros H j Hj. specialize (H j ltac:(apply in_seq; lia)).
    destruct (Z.gtb_spec (numbers !!! (i + j)%nat) UINT32_MAX); [discriminate | assumption].
  - intros H j Hj%in_seq. specialize (H j ltac:(lia)).
    destruct (Z.gtb_spec (numbers !!! (i + j)%nat) UINT32_MAX); [lia | reflexivity].
Qed.


Lemma vst1q_lane (v : uint32x4_t) (j : nat) :
  (j < 4)%nat -> vst1q_u32 v !!! j = lane v j.
Proof. intros Hj. destruct j as [| [| [| [| j]]]]; try lia; reflexivity. Qed.

Lemma vld1q_lane (f : nat -> Z) (j : nat) :
  (j < 4)%nat -> lane (vld1q_u32 (map f (seq 0 4))) j = f j.
Proof. intros Hj. destruct j as [| [| [| [| j]]]]; try lia; reflexivity. Qed.

(** With correct flags a write-back loop stores the scalar verdicts. *)
Lemma resolve_lanes_scalar (flags : list Z) (base : nat) (results : list bool) :
  (forall j, (j < 4)%nat -> flags !!! j <> 0 ->
             is_prime_scalar (numbers !!! (base + j)%nat) = false) ->
  resolve_lanes numbers flags base results = process_scalar numbers results base 4.
Proof.
  intros Hflags. unfold resolve_lanes, process_scalar.
  apply fold_left_ext_in. intros res j Hj%in_seq.
  destruct (Z.eqb_spec (flags !!! j) 0) as [| Hnz]; [reflexivity |].
  rewrite (Hflags j) by (lia || exact Hnz). reflexivity.
Qed.

(** On a group of 32-bit candidates the vector pass stores what
    scalar trial division stores. *)
Lemma vector_pass_scalar (results : list bool) (i : nat) :
  (forall j, (j < 8)%nat -> is_uint32 (numbers !!! (i + j)%nat)) ->
  vector_pass numbers results i = process_scalar numbers results i 8.
Proof.
  intros Hgroup. unfold vector_pass. cbv zeta.
  change (process_scalar numbers results i 8)
    with (process_scalar numbers results i (4 + 4)).
  rewrite process_scalar_app.
  set (n_vec1 := vld1q_u32 _). set (n_vec2 := vld1q_u32 _).
  rewrite (resolve_lanes_scalar _ i).
  - apply resolve_lanes_scalar. intros j Hj.
    rewrite vst1q_lane by exact Hj.
    rewrite (proj2 (sieve_bank_lane n_vec1 n_vec2 j)).
    unfold n_vec2. rewrite vld1q_lane by exact Hj.
    specialize (Hgroup (4 + j)%nat ltac:(lia)).
    replace (i + (4 + j))%nat with (i + 4 + j)%nat in Hgroup by lia.
    rewrite wrap32_small by exact Hgroup.
    apply lane_flag_sound, Hgroup.
  - intros j Hj.
    rewrite vst1q_lane by exact Hj.
    rewrite (proj1 (sieve_bank_lane n_vec1 n_vec2 j)).
    unfold n_vec1. rewrite vld1q_lane by exact Hj.
    specialize (Hgroup j ltac:(lia)).
    rewrite wrap32_small by exact Hgroup.
    apply lane_flag_sound, Hgroup.
Qed.

(** Either way a group ends with the scalar verdicts of its eight
    candidates. *)
Lemma group_body_scalar (results : list bool) (i : nat) :
  (forall j, (j < 8)%nat -> 0 <= numbers !!! (i + j)%nat) ->
  group_body numbers results i = process_scalar numbers results i 8.
Proof.
  intros Hnonneg. unfold group_body.
  destruct (can_use_neon numbers i) eqn:E; [| reflexivity].
  apply vector_pass_scalar. intros j Hj.
  pose proof (proj1 (can_use_neon_true i) E j Hj) as Hmax.
  specialize (Hnonneg j Hj). unfold is_uint32, UINT32_MAX in *. lia.
Qed.

Variable count : nat.
Hypothesis numbers_nonneg : forall k, (k < count)%nat -> 0 <= numbers !!! k.

Lemma group_loop_scalar (fuel g i : nat) (results : list bool) :
  (i + 8 * g <= count < i + 8 * g + 8)%nat -> (g <= fuel)%nat ->
  group_loop fuel numbers count i results
  = process_scalar numbers results i (8 * g).
Proof.
  revert g i results.
  induction fuel as [| fuel IH]; intros g i results Hg Hfuel.
  - replace g with 0%nat by lia. reflexivity.
  - cbn [group_loop].
    destruct (Nat.leb_spec (i + 8) count) as [Hle | Hgt].
    + destruct g as [| g]; [lia |].
      rewrite group_body_scalar by (intros j Hj; apply numbers_nonneg; lia).
      rewrite (IH g) by lia.
      replace (8 * S g)%nat with (8 + 8 * g)%nat by lia.
      rewrite process_scalar_app. reflexivity.
    + replace g with 0%nat by lia. reflexivity.
Qed.

Lemma process_batch_scalar (results : list bool) :
  process_batch_simd_real_8lane numbers results count
  = process_scalar numbers results 0 count.
Proof.
  unfold process_batch_simd_real_8lane. cbv zeta.
  pose proof (Nat.div_mod_eq count 8) as Hdm.
  pose proof (Nat.mod_upper_bound count 8 ltac:(lia)) as Hm.
  rewrite (group_loop_scalar count (count / 8) 0 results) by lia.
  destruct (Nat.eqb_spec (count mod 8) 0) as [E | E].
  - f_equal. lia.
  - replace (count - count mod 8)%nat with (0 + 8 * (count / 8))%nat by lia.
    rewrite <- process_scalar_app. f_equal. lia.
Qed.

End GroupFacts.

(** ** The engine against the scalar reference *)

Section EngineFacts.

Lemma uint64_lookup_nonneg (numbers : list Z) (k : nat) :
  Forall is_uint64 numbers -> (k < length numbers)%nat -> 0 <= numbers !!! k.
Proof.
  intros Hall Hk.
  pose proof (Forall_lookup_total_1 is_uint64 numbers k Hall Hk) as [H0 _].
  exact H0.
Qed.

Lemma process_as_scalar (numbers : list Z) (results : list bool) :
  Forall is_uint64 numbers ->
  process numbers results
  = process_scalar numbers (resize (length numbers) false results) 0 (length numbers).
Proof.
  intros Hall. unfold process. cbv zeta.
  destruct (16 <=? length numbers)%nat; [| reflexivity].
  apply process_batch_scalar. intros k Hk. apply uint64_lookup_nonneg; assumption.
Qed.

Lemma process_scalar_map (numbers : list Z) (results : list bool) :
  Forall is_uint64 numbers ->
  process numbers results = is_prime_scalar <$> numbers.
Proof.
  intros Hall. rewrite process_as_scalar by exact Hall.
  apply process_scalar_all, length_resize.
Qed.

End EngineFacts.

(** ** What a group pass touches

    These hold for any contents of [numbers]: a group writes the
    eight slots from its start and nothing else, and no write changes
    the length of [results]. *)

Section Footprint.

Variable numbers : list Z.

Lemma resolve_lanes_length (flags : list Z) (base : nat) (results : list bool) :
  length (resolve_lanes numbers flags base results) = length results.
Proof.
  unfold resolve_lanes. generalize (seq 0 4). intros l. revert results.
  induction l as [| j l IH]; intros results; cbn [fold_left]; [reflexivity |].
  rewrite IH. destruct (flags !!! j =? 0); apply length_insert.
Qed.

Lemma resolve_lanes_lookup_out (flags : list Z) (base k : nat) (results : list bool) :
  ~ (base <= k < base + 4)%nat ->
  resolve_lanes numbers flags base results !! k = results !! k.
Proof.
  intros Hk. unfold resolve_lanes.
  assert (Hl : forall j, In j (seq 0 4) -> (base + j)%nat <> k)
    by (intros j Hj%in_seq; lia).
  revert Hl. generalize (seq 0 4). intros l. revert results.
  induction l as [| j l IH]; intros results Hl; cbn [fold_left]; [reflexivity |].
  rewrite IH by (intros j' Hj'; apply Hl; right; exact Hj').
  specialize (Hl j ltac:(left; reflexivity)).
  destruct (flags !!! j =? 0); apply list_lookup_insert_ne; exact Hl.
Qed.

Lemma group_body_length (results : list bool) (i : nat) :
  length (group_body numbers results i) = length results.
Proof.
  unfold group_body, vector_pass. cbv zeta.
  destruct (can_use_neon numbers i).
  - rewrite !resolve_lanes_length. reflexivity.
  - apply process_scalar_length.
Qed.

Lemma group_body_lookup_out (results : list bool) (i k : nat) :
  ~ (i <= k < i + 8)%nat -> group_body numbers results i !! k = results !! k.
Proof.
  intros Hk. unfold group_body, vector_pass. cbv zeta.
  destruct (can_use_neon numbers i).
  - rewrite !resolve_lanes_lookup_out by lia. reflexivity.
  - apply process_scalar_lookup_out. exact Hk.
Qed.

Variable count : nat.

Lemma group_loop_length (fuel i : nat) (results : list bool) :
  length (group_loop fuel numbers count i results) = length results.
Proof.
  revert i results. induction fuel as [| fuel IH]; intros i results; cbn [group_loop].
  - reflexivity.
  - destruct (i + 8 <=? count)%nat; [| reflexivity].
    rewrite IH. apply group_body_length.
Qed.


Lemma process_batch_length (results : list bool) :
  length (process_batch_simd_real_8lane numbers results count) = length results.
Proof.
  unfold process_batch_simd_real_8lane. cbv zeta.
  destruct (count mod 8 =? 0)%nat.
  - apply group_loop_length.
  - rewrite process_scalar_length. apply group_loop_length.
Qed.

End Footprint.

Lemma process_length (numbers : list Z) (results : list bool) :
  length (process numbers results) = length numbers.
Proof.
  unfold process. cbv zeta.
  destruct (16 <=? length numbers)%nat.
  - rewrite process_batch_length. apply length_resize.
  - rewrite process_scalar_length. apply length_resize.
Qed.

(** * The claims *)

Lemma sample_batch_uint64 : Forall is_uint64 sample_batch.
Proof. repeat constructor; unfold is_uint64; lia. Defined.

Lemma mixed_batch_uint64 : Forall is_uint64 mixed_batch.
Proof. repeat constructor; unfold is_uint64; lia. Defined.

Lemma bank_3 : In 3 prime_bank.
Proof. right. left. reflexivity. Defined.

(** C1. For every sequence of 64-bit candidates, of any length and on
    either path, [process] returns the verdicts of [is_prime_scalar]
    on the candidates, element by element and in the same order; in
    particular [process([n])[0]] is [is_prime_scalar(n)]. *)
Theorem process_agrees_with_scalar
    (numbers : list Z) (results : list bool) (n : Z) :
  Forall is_uint64 numbers -> is_uint64 n ->
  process numbers results = is_prime_scalar <$> numbers /\
  process [n] results !! 0%nat = Some (is_prime_scalar n).
Proof.
  intros Hall Hn. split.
  - apply process_scalar_map, Hall.
  - rewrite process_scalar_map by (constructor; [exact Hn | constructor]).
    reflexivity.
Qed.

Lemma process_agrees_with_scalar_witness :
  Forall is_uint64 sample_batch /\ is_uint64 97 /\
  process sample_batch [] = is_prime_scalar <$> sample_batch /\
  process [97] [] !! 0%nat = Some (is_prime_scalar 97).
Proof.
  assert (H97 : is_uint64 97) by (unfold is_uint64; lia).
  split; [exact sample_batch_uint64 |]. split; [exact H97 |].
  exact (process_agrees_with_scalar sample_batch [] 97 sample_batch_uint64 H97).
Defined.

(** The batch lengths around the threshold and the group size. *)
Example process_boundary_lengths :
  Forall (fun len => process (take len sample_batch) []
                     = is_prime_scalar <$> take len sample_batch)
         [0; 7; 8; 9; 15; 16; 17]%nat.
Proof. repeat constructor; vm_compute; reflexivity. Qed.

(** The concrete scenarios of the specification. *)
Example process_scenarios :
  process [] [] = [] /\
  process [0; 1; 2; 3; 4] [] = [false; false; true; true; false] /\
  process [97] [] = [true] /\
  process [91] [] = [false] /\
  process (map (fun k => 1000000 + Z.of_nat k) (seq 0 20)) []
  = is_prime_scalar <$> map (fun k => 1000000 + Z.of_nat k) (seq 0 20).
Proof. repeat split; vm_compute; reflexivity. Qed.

(** C2. The claim is that the reducer returns [n mod p], below [p], in
    every lane.  At [n = 2^31] and [p = 3] the estimated quotient is
    one too large, the subtraction wraps, and every lane of both
    registers holds [2^32 - 4] where [n mod p] is [2]. *)
Theorem barrett_remainder_at_2_31 :
  let n_vec := vdupq_n_u32 2147483648 in
  let r := barrett_modq_u32_dual n_vec n_vec
             (vdupq_n_u32 (make_barrett_magic 3)) (vdupq_n_u32 3) in
  In 3 prime_bank /\ is_uint32 2147483648 /\
  make_barrett_magic 3 = 1431655766 /\
  barrett_quotient 2147483648 (make_barrett_magic 3) = 2147483648 / 3 + 1 /\
  r = (vdupq_n_u32 4294967292, vdupq_n_u32 4294967292) /\
  2147483648 mod 3 = 2.
Proof.
  cbv zeta. split; [exact bank_3 |].
  split; [unfold is_uint32; lia |].
  repeat split; vm_compute; reflexivity.
Qed.

(** C3. For a bank prime [p] and 32-bit lanes, a lane of the corrected
    remainder of [barrett_modq_u32_dual] is zero exactly when [p]
    divides that lane's candidate, in both registers: the zero test of
    the sieve is exact, also where the quotient overshoots. *)
Theorem barrett_zero_iff_divides
    (p : Z) (n_vec1 n_vec2 : uint32x4_t) (j : nat) :
  In p prime_bank -> lanes_uint32 n_vec1 -> lanes_uint32 n_vec2 ->
  let r := barrett_modq_u32_dual n_vec1 n_vec2
             (vdupq_n_u32 (make_barrett_magic p)) (vdupq_n_u32 p) in
  (lane (fst r) j = 0 <-> (p | lane n_vec1 j)) /\
  (lane (snd r) j = 0 <-> (p | lane n_vec2 j)).
Proof.
  intros Hin H1 H2. cbv zeta.
  pose proof (prime_bank_range p Hin) as Hp.
  destruct (barrett_dual_lane n_vec1 n_vec2
              (vdupq_n_u32 (make_barrett_magic p)) (vdupq_n_u32 p) j) as [E1 E2].
  rewrite E1, E2, !vdupq_lane.
  rewrite (barrett_lane_zero_iff p Hp _ (lanes_uint32_lane n_vec1 j H1)).
  rewrite (barrett_lane_zero_iff p Hp _ (lanes_uint32_lane n_vec2 j H2)).
  split; apply Z.mod_divide; lia.
Qed.

Lemma barrett_zero_iff_divides_witness :
  let n_vec1 := U32x4 2147483648 9 10 0 in
  let n_vec2 := U32x4 4294967295 4294967294 53 1 in
  let r := barrett_modq_u32_dual n_vec1 n_vec2
             (vdupq_n_u32 (make_barrett_magic 3)) (vdupq_n_u32 3) in
  (lane (fst r) 0 = 0 <-> (3 | lane n_vec1 0)) /\
  (lane (snd r) 0 = 0 <-> (3 | lane n_vec2 0)).
Proof.
  apply (barrett_zero_iff_divides 3 (U32x4 2147483648 9 10 0)
           (U32x4 4294967295 4294967294 53 1) 0%nat bank_3);
    unfold lanes_uint32, is_uint32; cbn; lia.
Defined.

(** C4. In one group pass every [sieve] step keeps a raised lane flag
    raised (the step ORs into the mask), and after the whole bank a
    lane's flag is raised exactly when some bank prime divides the
    lane's candidate and the candidate is not that prime. *)
Theorem composite_mask_monotone_and_exact
    (n_vec1 n_vec2 : uint32x4_t) (j : nat) :
  lanes_uint32 n_vec1 -> lanes_uint32 n_vec2 ->
  (forall masks p,
     (lane (fst masks) j <> 0 -> lane (fst (sieve n_vec1 n_vec2 masks p)) j <> 0) /\
     (lane (snd masks) j <> 0 -> lane (snd (sieve n_vec1 n_vec2 masks p)) j <> 0)) /\
  (lane (fst (sieve_bank n_vec1 n_vec2)) j <> 0 <->
     exists p, In p prime_bank /\ (p | lane n_vec1 j) /\ lane n_vec1 j <> p) /\
  (lane (snd (sieve_bank n_vec1 n_vec2)) j <> 0 <->
     exists p, In p prime_bank /\ (p | lane n_vec2 j) /\ lane n_vec2 j <> p).
Proof.
  intros H1 H2. split; [| split].
  - intros masks p.
    destruct (sieve_lane n_vec1 n_vec2 masks p j) as [S1 S2].
    rewrite S1, S2.
    split; intros Hset Hz; apply Z.lor_eq_0_iff in Hz as [Hz _]; contradiction.
  - rewrite (proj1 (sieve_bank_lane n_vec1 n_vec2 j)).
    apply lane_flag_spec, lanes_uint32_lane, H1.
  - rewrite (proj2 (sieve_bank_lane n_vec1 n_vec2 j)).
    apply lane_flag_spec, lanes_uint32_lane, H2.
Qed.

Lemma composite_mask_monotone_and_exact_witness :
  let n_vec1 := U32x4 91 97 53 0 in
  let n_vec2 := U32x4 2147483648 3127 2809 1 in
  (forall masks p,
     (lane (fst masks) 0 <> 0 -> lane (fst (sieve n_vec1 n_vec2 masks p)) 0 <> 0) /\
     (lane (snd masks) 0 <> 0 -> lane (snd (sieve n_vec1 n_vec2 masks p)) 0 <> 0)) /\
  (lane (fst (sieve_bank n_vec1 n_vec2)) 0 <> 0 <->
     exists p, In p prime_bank /\ (p | lane n_vec1 0) /\ lane n_vec1 0 <> p) /\
  (lane (snd (sieve_bank n_vec1 n_vec2)) 0 <> 0 <->
     exists p, In p prime_bank /\ (p | lane n_vec2 0) /\ lane n_vec2 0 <> p).
Proof.
  apply (composite_mask_monotone_and_exact (U32x4 91 97 53 0)
           (U32x4 2147483648 3127 2809 1) 0%nat);
    unfold lanes_uint32, is_uint32; cbn; lia.
Defined.

(** C5. On every 64-bit [n], [is_prime_scalar] returns what the stated
    algorithm returns ([n < 2] not prime, [2] prime, other even [n]
    composite, odd [n] composite exactly when an odd number from 3 up
    to [floor(sqrt n)] divides it), and that is [true] exactly when
    [n] is prime. *)
Theorem is_prime_scalar_correct (n : Z) :
  is_uint64 n ->
  is_prime_scalar n = scalar_trial_division n /\
  (is_prime_scalar n = true <-> Z.prime n).
Proof.
  intros Hn. split; [| apply is_prime_scalar_iff_prime, Hn].
  pose proof (is_prime_scalar_iff_prime n Hn) as Hcode.
  pose proof (scalar_trial_division_iff_prime n) as Hspec.
  destruct (is_prime_scalar n), (scalar_trial_division n); try reflexivity.
  - symmetry. apply Hspec, Hcode. reflexivity.
  - apply Hcode, Hspec. reflexivity.
Qed.

Lemma is_prime_scalar_correct_witness :
  is_uint64 4294967291 /\
  is_prime_scalar 4294967291 = scalar_trial_division 4294967291 /\
  (is_prime_scalar 4294967291 = true <-> Z.prime 4294967291).
Proof.
  assert (H : is_uint64 4294967291) by (unfold is_uint64; lia).
  split; [exact H | exact (is_prime_scalar_correct 4294967291 H)].
Defined.

(** C6. The engine is total on 64-bit candidates: [is_prime_scalar]
    returns on every one of them, its loop leaving within [n / 2]
    turns even where [i * i] wraps, and every verdict [process] stores
    is the value such a run returns. *)
Theorem is_prime_scalar_returns
    (n : Z) (numbers : list Z) (results : list bool) :
  is_uint64 n -> Forall is_uint64 numbers ->
  (exists v, is_prime_scalar_run 64 n = Some v /\ is_prime_scalar n = v) /\
  (3 <= n -> n mod 2 = 1 ->
   exists v, trial_steps (Z.to_nat (n / 2)) n 3 = inr v) /\
  Forall2 (fun c v => is_prime_scalar_run 64 c = Some v)
          numbers (process numbers results).
Proof.
  intros Hn Hall. split; [| split].
  - exists (is_prime_scalar n). split; [apply is_prime_scalar_run_some, Hn | reflexivity].
  - intros H3 Hodd.
    apply (trial_steps_returns n Hn); [exact Hodd | reflexivity | lia |].
    rewrite Z2Nat.id by (apply Z.div_pos; lia). mod_lia.
  - rewrite process_scalar_map by exact Hall.
    apply Forall2_fmap_r, Forall_Forall2_diag.
    eapply Forall_impl; [| exact Hall].
    intros c Hc. apply is_prime_scalar_run_some, Hc.
Qed.

Lemma is_prime_scalar_returns_witness :
  is_uint64 18446744073709551557 /\ Forall is_uint64 sample_batch /\
  (exists v, is_prime_scalar_run 64 18446744073709551557 = Some v /\
             is_prime_scalar 18446744073709551557 = v) /\
  (3 <= 18446744073709551557 -> 18446744073709551557 mod 2 = 1 ->
   exists v, trial_steps (Z.to_nat (18446744073709551557 / 2))
                         18446744073709551557 3 = inr v) /\
  Forall2 (fun c v => is_prime_scalar_run 64 c = Some v)
          sample_batch (process sample_batch []).
Proof.
  assert (H : is_uint64 18446744073709551557) by (unfold is_uint64; lia).
  split; [exact H |]. split; [exact sample_batch_uint64 |].
  exact (is_prime_scalar_returns 18446744073709551557 sample_batch [] H
           sample_batch_uint64).
Defined.

Lemma bank_lane_flag_zero (p : Z) : In p prime_bank -> lane_flag p = 0.
Proof.
  intros H.
  repeat (destruct H as [<- | H]; [vm_compute; reflexivity |]).
  destruct H.
Qed.

Lemma bank_is_prime_scalar (p : Z) : In p prime_bank -> is_prime_scalar p = true.
Proof.
  intros H.
  repeat (destruct H as [<- | H]; [vm_compute; reflexivity |]).
  destruct H.
Qed.

(** C7. A candidate equal to a bank prime is classified prime at
    every position of every input, on either path, and in the vector
    pass its own lane flag stays down. *)
Theorem bank_primes_classified_prime
    (numbers : list Z) (results : list bool) (i : nat) (p : Z) :
  Forall is_uint64 numbers -> numbers !! i = Some p -> In p prime_bank ->
  process numbers results !! i = Some true /\
  (forall n_vec1 n_vec2 j,
     (lane n_vec1 j = p -> lane (fst (sieve_bank n_vec1 n_vec2)) j = 0) /\
     (lane n_vec2 j = p -> lane (snd (sieve_bank n_vec1 n_vec2)) j = 0)).
Proof.
  intros Hall Hi Hin. split.
  - rewrite process_scalar_map by exact Hall.
    rewrite list_lookup_fmap, Hi. cbn [fmap option_fmap option_map].
    rewrite (bank_is_prime_scalar p Hin). reflexivity.
  - intros n_vec1 n_vec2 j.
    destruct (sieve_bank_lane n_vec1 n_vec2 j) as [E1 E2].
    rewrite E1, E2.
    split; intros ->; apply bank_lane_flag_zero, Hin.
Qed.

Lemma bank_primes_classified_prime_witness :
  Forall is_uint64 sample_batch /\ sample_batch !! 4%nat = Some 53 /\
  In 53 prime_bank /\
  process sample_batch [] !! 4%nat = Some true /\
  (forall n_vec1 n_vec2 j,
     (lane n_vec1 j = 53 -> lane (fst (sieve_bank n_vec1 n_vec2)) j = 0) /\
     (lane n_vec2 j = 53 -> lane (snd (sieve_bank n_vec1 n_vec2)) j = 0)).
Proof.
  assert (Hin : In 53 prime_bank) by (cbn; tauto).
  split; [exact sample_batch_uint64 |]. split; [reflexivity |].
  split; [exact Hin |].
  exact (bank_primes_classified_prime sample_batch [] 4%nat 53
           sample_batch_uint64 eq_refl Hin).
Defined.











(** C10. The output of [process] has the length of the input, also on
    the empty input, and the verdict at each index is that of the
    candidate at the same index. *)
Theorem process_length_and_order (numbers : list Z) (results : list bool) :
  length (process numbers results) = length numbers /\
  (Forall is_uint64 numbers ->
   forall i n, numbers !! i = Some n ->
               process numbers results !! i = Some (is_prime_scalar n)) /\
  process [] results = [].
Proof.
  split; [apply process_length |]. split.
  - intros Hall i n Hi.
    rewrite process_scalar_map by exact Hall.
    rewrite list_lookup_fmap, Hi. reflexivity.
  - unfold process. cbv zeta. cbn [length Nat.leb].
    rewrite process_scalar_0. apply resize_0.
Qed.

Lemma process_length_and_order_witness :
  length (process sample_batch [true; true]) = length sample_batch /\
  (Forall is_uint64 sample_batch /\
   forall i n, sample_batch !! i = Some n ->
               process sample_batch [true; true] !! i = Some (is_prime_scalar n)) /\
  process [] [true; true] = [].
Proof.
  destruct (process_length_and_order sample_batch [true; true]) as (Hlen & Hord & _).
  destruct (process_length_and_order [] [true; true]) as (_ & _ & Hnil).
  split; [exact Hlen |]. split; [| exact Hnil].
  split; [exact sample_batch_uint64 | exact (Hord sample_batch_uint64)].
Defined.


(** * Further properties *)

(** ** The reducer *)

(** X1. For every [p] from 2 up to [UINT32_MAX] the cast in
    [make_barrett_magic] cuts nothing off: the constant is
    [ceil(2^32 / p)], and [magic * p] exceeds [2^32] by less than [p].
    At [p = 1] the quotient is [2^32] and the cast leaves 0. *)
Theorem make_barrett_magic_ceiling (p : Z) :
  2 <= p < 2 ^ 32 ->
  make_barrett_magic p = (2 ^ 32 + p - 1) / p /\
  2 ^ 32 <= make_barrett_magic p * p < 2 ^ 32 + p /\
  make_barrett_magic 1 = 0.
Proof.
  intros Hp.
  assert (Hval : make_barrett_magic p = (2 ^ 32 + p - 1) / p).
  { unfold make_barrett_magic.
    change (wrap64 (Z.shiftl 1 32)) with (2 ^ 32).
    rewrite (wrap64_small (2 ^ 32 + p)) by lia.
    rewrite (wrap64_small (2 ^ 32 + p - 1)) by lia.
    apply wrap32_small. split.
    - apply Z.div_pos; lia.
    - apply Z.div_lt_upper_bound; nia. }
  split; [exact Hval |]. split; [| reflexivity].
  rewrite Hval.
  pose proof (Z.div_mod (2 ^ 32 + p - 1) p ltac:(lia)) as Hdm.
  pose proof (Z.mod_pos_bound (2 ^ 32 + p - 1) p ltac:(lia)) as Hm.
  lia.
Qed.

Lemma make_barrett_magic_ceiling_witness :
  2 <= 53 < 2 ^ 32 /\
  make_barrett_magic 53 = (2 ^ 32 + 53 - 1) / 53 /\
  2 ^ 32 <= make_barrett_magic 53 * 53 < 2 ^ 32 + 53 /\
  make_barrett_magic 1 = 0.
Proof.
  assert (H : 2 <= 53 < 2 ^ 32) by lia.
  split; [exact H | exact (make_barrett_magic_ceiling 53 H)].
Defined.

Lemma barrett_lane_outcome (p n : Z) :
  2 <= p < 2 ^ 31 -> is_uint32 n ->
  barrett_outcome p n (barrett_lane n (make_barrett_magic p) p).
Proof.
  intros Hp Hn. unfold barrett_outcome.
  pose proof (quotient_error p Hp n Hn) as He.
  pose proof (Z.div_mod n p ltac:(lia)) as Hdm.
  pose proof (Z.mod_pos_bound n p ltac:(lia)) as Hm.
  destruct (Z.le_gt_cases (barrett_quotient n (make_barrett_magic p) * p) n)
    as [Hle | Hgt].
  - left. split; [| apply (barrett_lane_exact p Hp n Hn Hle)].
    apply (Z.div_unique_pos n p _ (n - barrett_quotient n (make_barrett_magic p) * p)); lia.
  - right. split; [| apply (barrett_lane_overshoot p Hp n Hn Hgt)].
    assert (Hq : n / p
                 = barrett_quotient n (make_barrett_magic p) - 1).
    { symmetry.
      apply (Z.div_unique_pos n p _
               (n - (barrett_quotient n (make_barrett_magic p) - 1) * p)); lia. }
    lia.
Qed.

(** X2. With a divisor [2 <= p < 2^31] and 32-bit lanes, each lane of
    either register of [barrett_modq_u32_dual] ends in one of two
    ways: the estimated quotient is [n / p] and the lane holds
    [n mod p], or the estimate is [n / p + 1] and the lane holds
    [2^32 + n mod p - 2p].  The estimate is never too small, so the
    conditional subtraction never fires on a lane that needs it. *)
Theorem barrett_dual_outcomes
    (p : Z) (n_vec1 n_vec2 : uint32x4_t) (j : nat) :
  2 <= p < 2 ^ 31 -> lanes_uint32 n_vec1 -> lanes_uint32 n_vec2 ->
  let r := barrett_modq_u32_dual n_vec1 n_vec2
             (vdupq_n_u32 (make_barrett_magic p)) (vdupq_n_u32 p) in
  barrett_outcome p (lane n_vec1 j) (lane (fst r) j) /\
  barrett_outcome p (lane n_vec2 j) (lane (snd r) j).
Proof.
  intros Hp H1 H2. cbv zeta.
  destruct (barrett_dual_lane n_vec1 n_vec2
              (vdupq_n_u32 (make_barrett_magic p)) (vdupq_n_u32 p) j) as [E1 E2].
  rewrite E1, E2, !vdupq_lane.
  split; apply barrett_lane_outcome;
    first [exact Hp | apply lanes_uint32_lane; assumption].
Qed.

Lemma barrett_dual_outcomes_witness :
  let n_vec1 := U32x4 2147483648 9 10 0 in
  let n_vec2 := U32x4 4294967295 4294967294 53 1 in
  let r := barrett_modq_u32_dual n_vec1 n_vec2
             (vdupq_n_u32 (make_barrett_magic 3)) (vdupq_n_u32 3) in
  barrett_outcome 3 (lane n_vec1 0) (lane (fst r) 0) /\
  barrett_outcome 3 (lane n_vec2 0) (lane (snd r) 0).
Proof.
  apply (barrett_dual_outcomes 3 (U32x4 2147483648 9 10 0)
           (U32x4 4294967295 4294967294 53 1) 0%nat);
    [lia | unfold lanes_uint32, is_uint32; cbn; lia
         | unfold lanes_uint32, is_uint32; cbn; lia].
Defined.

Lemma barrett_lane_small (p n : Z) :
  2 <= p < 2 ^ 31 -> is_uint32 n -> n * (p - 1) < 2 ^ 32 ->
  barrett_lane n (make_barrett_magic p) p = n mod p.
Proof.
  intros Hp Hn Hsmall.
  apply (barrett_lane_exact p Hp n Hn).
  destruct (Z.le_gt_cases (barrett_quotient n (make_barrett_magic p) * p) n)
    as [Hle | Hgt]; [exact Hle | exfalso].
  destruct (magic_bounds p Hp) as [Hmp Hm].
  rewrite (quotient_value p Hp n Hn) in Hgt.
  pose proof (Z.div_mod (n * make_barrett_magic p) (2 ^ 32) ltac:(lia)) as Hdm.
  pose proof (Z.mod_pos_bound (n * make_barrett_magic p) (2 ^ 32) ltac:(lia)) as Hr.
  set (k := n * make_barrett_magic p / 2 ^ 32) in *.
  unfold is_uint32 in Hn.
  assert (Hup : n * (make_barrett_magic p * p) <= n * 2 ^ 32 + n * (p - 1)) by nia.
  assert (Hlo : 2 ^ 32 * (k * p) <= n * (make_barrett_magic p * p)) by nia.
  nia.
Qed.

(** X3. Where [n * (p - 1) < 2^32] the reducer is exact: the lane
    holds [n mod p], a value below [p].  For [p = 2] that is every
    32-bit [n]; for the largest bank prime, 53, every [n] up to
    82 595 524. *)
Theorem barrett_dual_exact_when_small
    (p : Z) (n_vec1 n_vec2 : uint32x4_t) (j : nat) :
  2 <= p < 2 ^ 31 -> lanes_uint32 n_vec1 -> lanes_uint32 n_vec2 ->
  let r := barrett_modq_u32_dual n_vec1 n_vec2
             (vdupq_n_u32 (make_barrett_magic p)) (vdupq_n_u32 p) in
  (lane n_vec1 j * (p - 1) < 2 ^ 32 ->
   lane (fst r) j = lane n_vec1 j mod p /\ 0 <= lane (fst r) j < p) /\
  (lane n_vec2 j * (p - 1) < 2 ^ 32 ->
   lane (snd r) j = lane n_vec2 j mod p /\ 0 <= lane (snd r) j < p).
Proof.
  intros Hp H1 H2. cbv zeta.
  destruct (barrett_dual_lane n_vec1 n_vec2
              (vdupq_n_u32 (make_barrett_magic p)) (vdupq_n_u32 p) j) as [E1 E2].
  rewrite E1, E2, !vdupq_lane.
  split; intros Hsmall.
  - rewrite (barrett_lane_small p _ Hp (lanes_uint32_lane n_vec1 j H1) Hsmall).
    split; [reflexivity | apply Z.mod_pos_bound; lia].
  - rewrite (barrett_lane_small p _ Hp (lanes_uint32_lane n_vec2 j H2) Hsmall).
    split; [reflexivity | apply Z.mod_pos_bound; lia].
Qed.

Lemma barrett_dual_exact_when_small_witness :
  let n_vec1 := U32x4 82595524 9 10 0 in
  let n_vec2 := U32x4 1000003 4294967294 53 1 in
  let r := barrett_modq_u32_dual n_vec1 n_vec2
             (vdupq_n_u32 (make_barrett_magic 53)) (vdupq_n_u32 53) in
  (lane (fst r) 0 = lane n_vec1 0 mod 53 /\ 0 <= lane (fst r) 0 < 53) /\
  (lane (snd r) 0 = lane n_vec2 0 mod 53 /\ 0 <= lane (snd r) 0 < 53).
Proof.
  assert (Hp : 2 <= 53 < 2 ^ 31) by lia.
  assert (H1 : lanes_uint32 (U32x4 82595524 9 10 0))
    by (unfold lanes_uint32, is_uint32; cbn; lia).
  assert (H2 : lanes_uint32 (U32x4 1000003 4294967294 53 1))
    by (unfold lanes_uint32, is_uint32; cbn; lia).
  destruct (barrett_dual_exact_when_small 53 (U32x4 82595524 9 10 0)
              (U32x4 1000003 4294967294 53 1) 0%nat Hp H1 H2) as [A B].
  split; [apply A | apply B]; cbn; lia.
Defined.

(** ** The sieve *)

Lemma lane_divisible_mask (n p : Z) : is_mask (lane_divisible n p).
Proof.
  unfold lane_divisible, is_mask.
  destruct (barrett_lane n (make_barrett_magic p) p =? 0), (n =? p);
    vm_compute; auto.
Qed.

Lemma lor_mask (a b : Z) : is_mask a -> is_mask b -> is_mask (Z.lor a b).
Proof. intros [-> | ->] [-> | ->]; vm_compute; auto. Qed.

Lemma fold_lor_mask (f : Z -> Z) (ps : list Z) (m : Z) :
  (forall p, is_mask (f p)) -> is_mask m ->
  is_mask (fold_left (fun m p => Z.lor m (f p)) ps m).
Proof.
  intros Hf. revert m. induction ps as [| p ps IH]; intros m Hm; cbn [fold_left].
  - exact Hm.
  - apply IH, lor_mask; [exact Hm | apply Hf].
Qed.

(** X4. The composite masks stay well formed: if every lane of both
    masks is 0 or [0xFFFFFFFF], so is every lane after any run of
    [sieve] steps, whatever the candidates and the primes; the masks
    after the whole bank are of that form. *)
Theorem sieve_keeps_masks
    (n_vec1 n_vec2 : uint32x4_t) (ps : list Z) (masks : uint32x4_t * uint32x4_t) :
  lanes_mask (fst masks) -> lanes_mask (snd masks) ->
  lanes_mask (fst (fold_left (sieve n_vec1 n_vec2) ps masks)) /\
  lanes_mask (snd (fold_left (sieve n_vec1 n_vec2) ps masks)) /\
  lanes_mask (fst (sieve_bank n_vec1 n_vec2)) /\
  lanes_mask (snd (sieve_bank n_vec1 n_vec2)).
Proof.
  intros H1 H2. repeat split; intros j.
  - rewrite (proj1 (sieve_fold_lane n_vec1 n_vec2 ps masks j)).
    apply fold_lor_mask; [intros p; apply lane_divisible_mask | apply H1].
  - rewrite (proj2 (sieve_fold_lane n_vec1 n_vec2 ps masks j)).
    apply fold_lor_mask; [intros p; apply lane_divisible_mask | apply H2].
  - rewrite (proj1 (sieve_bank_lane n_vec1 n_vec2 j)). unfold lane_flag.
    apply fold_lor_mask; [intros p; apply lane_divisible_mask | left; reflexivity].
  - rewrite (proj2 (sieve_bank_lane n_vec1 n_vec2 j)). unfold lane_flag.
    apply fold_lor_mask; [intros p; apply lane_divisible_mask | left; reflexivity].
Qed.

Lemma zero_lanes_mask : lanes_mask (vdupq_n_u32 0).
Proof. intros j. rewrite vdupq_lane. left. reflexivity. Defined.

Lemma sieve_keeps_masks_witness :
  let n_vec1 := U32x4 91 97 53 0 in
  let n_vec2 := U32x4 2147483648 3127 2809 1 in
  let masks := (vdupq_n_u32 0, vdupq_n_u32 0) in
  lanes_mask (fst (fold_left (sieve n_vec1 n_vec2) [7; 3] masks)) /\
  lanes_mask (snd (fold_left (sieve n_vec1 n_vec2) [7; 3] masks)) /\
  lanes_mask (fst (sieve_bank n_vec1 n_vec2)) /\
  lanes_mask (snd (sieve_bank n_vec1 n_vec2)).
Proof.
  exact (sieve_keeps_masks (U32x4 91 97 53 0) (U32x4 2147483648 3127 2809 1)
           [7; 3] (vdupq_n_u32 0, vdupq_n_u32 0) zero_lanes_mask zero_lanes_mask).
Defined.

Lemma fold_lor_permutation (f : Z -> Z) (ps ps' : list Z) (m : Z) :
  Permutation ps ps' ->
  fold_left (fun m p => Z.lor m (f p)) ps m
  = fold_left (fun m p => Z.lor m (f p)) ps' m.
Proof.
  intros Hperm. revert m.
  induction Hperm as [| p ps ps' _ IH | p p' ps | ps ps' ps'' _ IH1 _ IH2];
    intros m; cbn [fold_left].
  - reflexivity.
  - apply IH.
  - f_equal. rewrite <- !Z.lor_assoc. f_equal. apply Z.lor_comm.
  - rewrite IH1. apply IH2.
Qed.

Lemma uint32x4_ext (a b : uint32x4_t) :
  (forall j, lane a j = lane b j) -> a = b.
Proof.
  intros H. destruct a as [a0 a1 a2 a3], b as [b0 b1 b2 b3].
  pose proof (H 0%nat) as H0. pose proof (H 1%nat) as H1.
  pose proof (H 2%nat) as H2. pose proof (H 3%nat) as H3.
  cbn in H0, H1, H2, H3. congruence.
Qed.

(** X5. The order of the bank does not matter: applying [sieve] for
    the primes of any rearrangement of the bank, from cleared masks,
    gives the two masks the group pass computes. *)
Theorem sieve_order_irrelevant
    (n_vec1 n_vec2 : uint32x4_t) (ps : list Z) :
  Permutation ps prime_bank ->
  fold_left (sieve n_vec1 n_vec2) ps (vdupq_n_u32 0, vdupq_n_u32 0)
  = sieve_bank n_vec1 n_vec2.
Proof.
  intros Hperm.
  set (a := fold_left (sieve n_vec1 n_vec2) ps (vdupq_n_u32 0, vdupq_n_u32 0)).
  set (b := sieve_bank n_vec1 n_vec2).
  assert (H1 : fst a = fst b).
  { apply uint32x4_ext. intros j. unfold a, b.
    rewrite (proj1 (sieve_fold_lane _ _ _ _ j)).
    rewrite (proj1 (sieve_bank_lane _ _ j)). unfold lane_flag.
    cbn [fst]. rewrite vdupq_lane. apply fold_lor_permutation, Hperm. }
  assert (H2 : snd a = snd b).
  { apply uint32x4_ext. intros j. unfold a, b.
    rewrite (proj2 (sieve_fold_lane _ _ _ _ j)).
    rewrite (proj2 (sieve_bank_lane _ _ j)). unfold lane_flag.
    cbn [snd]. rewrite vdupq_lane. apply fold_lor_permutation, Hperm. }
  destruct a, b. cbn [fst snd] in H1, H2. congruence.
Qed.

Lemma sieve_order_irrelevant_witness :
  Permutation (rev prime_bank) prime_bank /\
  fold_left (sieve (U32x4 91 97 53 0) (U32x4 2147483648 3127 2809 1))
            (rev prime_bank) (vdupq_n_u32 0, vdupq_n_u32 0)
  = sieve_bank (U32x4 91 97 53 0) (U32x4 2147483648 3127 2809 1).
Proof.
  assert (H : Permutation (rev prime_bank) prime_bank)
    by (symmetry; apply Permutation_rev).
  split; [exact H |].
  exact (sieve_order_irrelevant (U32x4 91 97 53 0)
           (U32x4 2147483648 3127 2809 1) (rev prime_bank) H).
Defined.

Lemma lane_flag_small_check :
  forallb (fun k => Bool.eqb (lane_flag (Z.of_nat k) =? 0)
                             (is_prime_scalar (Z.of_nat k)))
          (seq 2 3479) = true.
Proof. vm_compute. reflexivity. Qed.

Lemma lane_flag_decides_small (n : Z) :
  2 <= n < 3481 -> (lane_flag n = 0 <-> Z.prime n).
Proof.
  intros Hn.
  pose proof lane_flag_small_check as Hall.
  rewrite forallb_forall in Hall.
  specialize (Hall (Z.to_nat n) ltac:(apply in_seq; lia)).
  rewrite Z2Nat.id in Hall by lia.
  apply Bool.eqb_prop in Hall.
  rewrite <- (is_prime_scalar_iff_prime n) by (unfold is_uint64; lia).
  rewrite <- Hall. symmetry. apply Z.eqb_eq.
Qed.

(** X6. Below [59 * 59 = 3481] the vector pass decides on its own: a
    lane holding a candidate from 2 to 3480 ends with its flag down
    exactly when the candidate is prime.  The bound is the first
    failure: 3481 is composite and its flag stays down. *)
Theorem sieve_decides_below_3481
    (n_vec1 n_vec2 : uint32x4_t) (j : nat) :
  (2 <= lane n_vec1 j < 3481 ->
   (lane (fst (sieve_bank n_vec1 n_vec2)) j = 0 <-> Z.prime (lane n_vec1 j))) /\
  (2 <= lane n_vec2 j < 3481 ->
   (lane (snd (sieve_bank n_vec1 n_vec2)) j = 0 <-> Z.prime (lane n_vec2 j))) /\
  (lane n_vec1 j = 3481 ->
   lane (fst (sieve_bank n_vec1 n_vec2)) j = 0 /\ ~ Z.prime (lane n_vec1 j)).
Proof.
  destruct (sieve_bank_lane n_vec1 n_vec2 j) as [E1 E2].
  rewrite E1, E2. split; [| split].
  - apply lane_flag_decides_small.
  - apply lane_flag_decides_small.
  - intros ->. split; [vm_compute; reflexivity |].
    intros [_ Hnd]. apply (Hnd 59); [lia | exists 59; reflexivity].
Qed.

Lemma sieve_decides_below_3481_witness :
  let n_vec1 := U32x4 3127 97 53 0 in
  let n_vec2 := U32x4 3469 3127 2809 1 in
  2 <= lane n_vec1 0 < 3481 /\ 2 <= lane n_vec2 0 < 3481 /\
  (lane (fst (sieve_bank n_vec1 n_vec2)) 0 = 0 <-> Z.prime (lane n_vec1 0)) /\
  (lane (snd (sieve_bank n_vec1 n_vec2)) 0 = 0 <-> Z.prime (lane n_vec2 0)).
Proof.
  destruct (sieve_decides_below_3481 (U32x4 3127 97 53 0)
              (U32x4 3469 3127 2809 1) 0%nat) as (A & B & _).
  assert (H1 : 2 <= 3127 < 3481) by lia.
  assert (H2 : 2 <= 3469 < 3481) by lia.
  split; [exact H1 |]. split; [exact H2 |].
  split; [exact (A H1) | exact (B H2)].
Defined.

(** ** The result array *)

(** X7. [process_scalar] writes the window [base .. base + count - 1]
    and nothing else: the length of [results] is kept, a slot of the
    window gets the scalar verdict of the candidate at the same index,
    and every other slot keeps its value. *)
Theorem process_scalar_frame
    (numbers : list Z) (results : list bool) (base count k : nat) :
  length (process_scalar numbers results base count) = length results /\
  process_scalar numbers results base count !! k
  = if decide ((base <= k < base + count)%nat /\ (k < length results)%nat)
    then Some (is_prime_scalar (numbers !!! k))
    else results !! k.
Proof.
  split; [apply process_scalar_length |].
  destruct (decide ((base <= k < base + count)%nat /\ (k < length results)%nat))
    as [[Hin Hlen] | Hout].
  - apply process_scalar_lookup_in; assumption.
  - destruct (decide (base <= k < base + count)%nat) as [Hin | Hnot].
    + assert (Hge : (length results <= k)%nat) by lia.
      rewrite (lookup_ge_None_2 results k Hge).
      apply lookup_ge_None_2. rewrite process_scalar_length. exact Hge.
    + apply process_scalar_lookup_out. exact Hnot.
Qed.

Lemma if_insert (c : bool) (a : nat) (x y : bool) (res : list bool) :
  (if c then <[a := x]> res else <[a := y]> res) = <[a := if c then x else y]> res.
Proof. destruct c; reflexivity. Qed.

Lemma resolve_lanes_lookup_in
    (numbers : list Z) (flags : list Z) (base j : nat) (results : list bool) :
  (j < 4)%nat -> (base + j < length results)%nat ->
  resolve_lanes numbers flags base results !! (base + j)%nat
  = Some (if flags !!! j =? 0
          then is_prime_scalar (numbers !!! (base + j)%nat) else false).
Proof.
  intros Hj Hlen. unfold resolve_lanes. cbn [seq fold_left].
  rewrite !if_insert.
  destruct j as [| [| [| [| j]]]]; try lia;
    repeat (rewrite list_lookup_insert_ne by lia);
    (rewrite list_lookup_insert_eq by (rewrite ?length_insert; lia));
    reflexivity.
Qed.

Lemma resolve_pair_true
    (numbers : list Z) (flags1 flags2 : list Z) (results : list bool) (i j : nat) :
  (j < 8)%nat ->
  resolve_lanes numbers flags2 (i + 4)
    (resolve_lanes numbers flags1 i results) !! (i + j)%nat = Some true ->
  is_prime_scalar (numbers !!! (i + j)%nat) = true.
Proof.
  intros Hj Htrue.
  assert (Hlen : (i + j < length results)%nat).
  { apply lookup_lt_Some in Htrue.
    rewrite !resolve_lanes_length in Htrue. exact Htrue. }
  destruct (decide (j < 4)%nat) as [Hlo | Hhi].
  - rewrite resolve_lanes_lookup_out in Htrue by lia.
    rewrite resolve_lanes_lookup_in in Htrue by lia.
    destruct (flags1 !!! j =? 0); congruence.
  - replace (i + j)%nat with (i + 4 + (j - 4))%nat in Htrue |- * by lia.
    rewrite resolve_lanes_lookup_in in Htrue
      by (rewrite ?resolve_lanes_length; lia).
    destruct (flags2 !!! (j - 4)%nat =? 0); congruence.
Qed.

(** X8. A group pass touches its own eight slots only, whatever the
    candidates are: the length of [results] is kept and every slot
    outside [i .. i + 7] keeps its value.  And no slot of the group is
    set to [true] unless [is_prime_scalar] returns [true] on its
    candidate: the vector pass can only lower a verdict. *)
Theorem group_body_footprint
    (numbers : list Z) (results : list bool) (i : nat) :
  length (group_body numbers results i) = length results /\
  (forall k, ~ (i <= k < i + 8)%nat ->
     group_body numbers results i !! k = results !! k) /\
  (forall j, (j < 8)%nat ->
     group_body numbers results i !! (i + j)%nat = Some true ->
     is_prime_scalar (numbers !!! (i + j)%nat) = true).
Proof.
  split; [apply group_body_length |].
  split; [intros k Hk; apply group_body_lookup_out, Hk |].
  intros j Hj. unfold group_body.
  destruct (can_use_neon numbers i).
  - unfold vector_pass. cbv zeta. apply resolve_pair_true, Hj.
  - intros Htrue.
    assert (Hlen : (i + j < length results)%nat).
    { apply lookup_lt_Some in Htrue.
      rewrite process_scalar_length in Htrue. exact Htrue. }
    rewrite process_scalar_lookup_in in Htrue by lia. congruence.
Qed.

(** X9. A batch can be split anywhere: processing the two parts
    separately and joining the outputs gives the output for the whole
    batch, so a candidate's verdict does not depend on its neighbours,
    its position, or which path its group took.  The vectors handed in
    for the results are arbitrary on all three calls; what they held
    never shows. *)
Theorem process_app
    (numbers1 numbers2 : list Z) (results results1 results2 : list bool) :
  Forall is_uint64 numbers1 -> Forall is_uint64 numbers2 ->
  process (numbers1 ++ numbers2) results
  = process numbers1 results1 ++ process numbers2 results2.
Proof.
  intros H1 H2.
  rewrite !process_scalar_map by (try apply Forall_app; auto).
  apply fmap_app.
Qed.

Lemma process_app_witness :
  Forall is_uint64 sample_batch /\ Forall is_uint64 mixed_batch /\
  process (sample_batch ++ mixed_batch) [true; true; true]
  = process sample_batch [] ++ process mixed_batch (replicate 40 true).
Proof.
  split; [exact sample_batch_uint64 |]. split; [exact mixed_batch_uint64 |].
  exact (process_app sample_batch mixed_batch [true; true; true] []
           (replicate 40 true) sample_batch_uint64 mixed_batch_uint64).
Defined.

(** ** The scalar loop *)

(** X10. Below [(2^32 - 1)^2] no product wraps and the loop of
    [is_prime_scalar] stops at the square root: on an odd [n >= 3] it
    returns the verdict within [(floor(sqrt n) + 1) / 2] turns. *)
Theorem trial_loop_turn_bound (n : Z) :
  3 <= n < (2 ^ 32 - 1) * (2 ^ 32 - 1) -> n mod 2 = 1 ->
  trial_steps (Z.to_nat ((Z.sqrt n + 1) / 2)) n 3 = inr (is_prime_scalar n).
Proof.
  intros Hn Hodd.
  assert (H64 : 0 <= n < 2 ^ 64) by lia.
  pose proof (Z.sqrt_spec n ltac:(lia)) as Hs. cbv zeta in Hs.
  pose proof (Z.sqrt_nonneg n) as Hs0.
  set (s := Z.sqrt n) in *. unfold Z.succ in Hs.
  assert (Hs1 : 1 <= s) by nia.
  assert (Hs32 : s <= 2 ^ 32 - 2) by nia.
  assert (Hm : Z.of_nat (Z.to_nat ((s + 1) / 2)) = (s + 1) / 2)
    by (apply Z2Nat.id, Z.div_pos; lia).
  destruct (prime_decidable n) as [Hp | Hnp].
  - rewrite (is_prime_scalar_of_prime n H64 Hp).
    assert (Hx : exists x, x mod 2 = 1 /\ s < x <= s + 2 /\ 3 <= x).
    { destruct (Z.eq_dec ((s + 1) mod 2) 1) as [Ho | He].
      - exists (s + 1). split; [exact Ho |]. split; [lia | mod_lia].
      - exists (s + 2). split; [mod_lia | lia]. }
    destruct Hx as (x & Hxo & Hxs & Hx3).
    assert (Hx32 : x <= 2 ^ 32 - 1) by mod_lia.
    assert (Hxn : x <= n) by nia.
    apply (trial_steps_no_divisor n H64 x); try first [assumption | reflexivity | lia].
    + rewrite wrap64_small by nia. nia.
    + intros j Hj. apply prime_no_divisor; [exact Hp | lia].
    + rewrite Hm. mod_lia.
  - rewrite (is_prime_scalar_of_composite n H64 Hnp).
    destruct (composite_odd_divisor n ltac:(lia) Hodd Hnp) as (d & Hd & Hd3 & Hdd & Hdiv).
    assert (Hds : d <= s) by (apply Z.sqrt_le_square; lia).
    apply (trial_steps_divisor n H64 d); try first [assumption | reflexivity | lia].
    rewrite Hm. mod_lia.
Qed.

Lemma trial_loop_turn_bound_witness :
  3 <= 4294967291 < (2 ^ 32 - 1) * (2 ^ 32 - 1) /\ 4294967291 mod 2 = 1 /\
  trial_steps (Z.to_nat ((Z.sqrt 4294967291 + 1) / 2)) 4294967291 3
  = inr (is_prime_scalar 4294967291).
Proof.
  assert (H1 : 3 <= 4294967291 < (2 ^ 32 - 1) * (2 ^ 32 - 1)) by lia.
  assert (H2 : 4294967291 mod 2 = 1) by reflexivity.
  split; [exact H1 |]. split; [exact H2 |].
  exact (trial_loop_turn_bound 4294967291 H1 H2).
Defined.

Lemma trial_steps_not_true_early (n : Z) (m : nat) (i : Z) :
  (2 ^ 32 - 1) * (2 ^ 32 - 1) <= n < 2 ^ 64 ->
  0 <= i -> i + 2 * Z.of_nat m <= 2 ^ 32 + 1 ->
  trial_steps m n i <> inr true.
Proof.
  intros Hn. revert i. induction m as [| m IH]; intros i Hi0 Hi; cbn [trial_steps].
  - discriminate.
  - unfold trial_step.
    assert (Hi32 : i <= 2 ^ 32 - 1) by lia.
    rewrite (wrap64_small (i * i)) by nia.
    destruct (Z.leb_spec (i * i) n) as [_ | Hgt]; [| nia].
    destruct (n mod i =? 0); [discriminate |].
    rewrite wrap64_small by lia.
    apply IH; lia.
Qed.

(** X11. From [(2^32 - 1)^2] on the test [i * i <= n] cannot fail
    before [i * i] has wrapped: in its first [2^31 - 1] turns the loop
    either goes on or returns [false], never [true].  A verdict [true]
    on such an [n] costs at least [2^31] turns. *)
Theorem trial_loop_overruns_sqrt (n : Z) (m : nat) :
  (2 ^ 32 - 1) * (2 ^ 32 - 1) <= n < 2 ^ 64 ->
  Z.of_nat m <= 2 ^ 31 - 1 ->
  trial_steps m n 3 <> inr true.
Proof.
  intros Hn Hm. apply trial_steps_not_true_early; [exact Hn | lia | lia].
Qed.

Lemma trial_loop_overruns_sqrt_witness :
  (2 ^ 32 - 1) * (2 ^ 32 - 1) <= 18446744073709551557 < 2 ^ 64 /\
  Z.of_nat 1000 <= 2 ^ 31 - 1 /\
  trial_steps 1000 18446744073709551557 3 <> inr true.
Proof.
  assert (H1 : (2 ^ 32 - 1) * (2 ^ 32 - 1) <= 18446744073709551557 < 2 ^ 64) by lia.
  assert (H2 : Z.of_nat 1000 <= 2 ^ 31 - 1) by lia.
  split; [exact H1 |]. split; [exact H2 |].
  exact (trial_loop_overruns_sqrt 18446744073709551557 1000 H1 H2).
Defined.

(** ** The driver *)

Lemma string_append_assoc (a b c : String.string) :
  String.append (String.append a b) c = String.append a (String.append b c).
Proof.
  induction a as [| ch a IH]; [reflexivity |].
  change (String.String ch (String.append (String.append a b) c)
          = String.String ch (String.append a (String.append b c))).
  f_equal. exact IH.
Qed.

Lemma string_append_empty_r (a : String.string) :
  String.append a ""%string = a.
Proof.
  induction a as [| ch a IH]; [reflexivity |].
  change (String.String ch (String.append a ""%string) = String.String ch a).
  f_equal. exact IH.
Qed.

Lemma collect_arguments (g : String.string -> Z) (argv : list String.string)
    (c : nat) (acc : list Z) :
  (1 + c <= length argv)%nat ->
  fold_left (fun nums i => nums ++ [g (argv !!! i)]) (seq 1 c) acc
  = acc ++ map g (take c (drop 1 argv)).
Proof.
  intros Hc. induction c as [| c IH].
  - cbn. rewrite app_nil_r. reflexivity.
  - rewrite seq_S, fold_left_app. cbn [fold_left].
    rewrite IH by lia.
    assert (Hlook : drop 1 argv !! c = Some (argv !!! (1 + c)%nat)).
    { rewrite lookup_drop. apply list_lookup_lookup_total_lt. lia. }
    rewrite (take_S_r _ _ _ Hlook), map_app, app_assoc. reflexivity.
Qed.

Lemma lines_text_snoc (l : list String.string) (x : String.string) :
  lines_text (l ++ [x]) = String.append (lines_text l) x.
Proof.
  induction l as [| y l IH]; cbn [app lines_text].
  - rewrite string_append_empty_r. reflexivity.
  - rewrite IH, string_append_assoc. reflexivity.
Qed.

Lemma print_lines (f : nat -> String.string) (c : nat) (header : String.string) :
  fold_left (fun o i => String.append o (f i)) (seq 0 c) header
  = String.append header (lines_text (map f (seq 0 c))).
Proof.
  induction c as [| c IH].
  - cbn. rewrite string_append_empty_r. reflexivity.
  - rewrite seq_S, fold_left_app, map_app. cbn [fold_left map].
    rewrite IH, string_append_assoc, lines_text_snoc. reflexivity.
Qed.

Lemma map_seq_lookup {A B : Type} `{!Inhabited A} (h : A -> B) (l : list A) :
  map (fun i => h (l !!! i)) (seq 0 (length l)) = map h l.
Proof.
  induction l as [| x l IH] using rev_ind.
  - reflexivity.
  - rewrite length_app. cbn [length]. rewrite Nat.add_1_r, seq_S, !map_app.
    cbn [map]. f_equal.
    + rewrite <- IH. apply map_ext_in. intros i Hi%in_seq.
      rewrite lookup_total_app_l by lia. reflexivity.
    + rewrite lookup_total_app_r by lia.
      replace (0 + length l - length l)%nat with 0%nat by lia. reflexivity.
Qed.

(** X12. [main] returns 1 and prints only the usage line, on
    [std::cerr], exactly when no number is given.  Otherwise it returns
    0, writes nothing to [std::cerr], and [std::cout] holds the header
    followed by one line per argument, in argument order; the line of
    an argument shows the value [strtoull] gave for it, reduced to 64
    bits, and says prime exactly when that value is prime. *)
Theorem main_report (strtoull : String.string -> Z) (argv : list String.string) :
  ((length argv < 2)%nat ->
   main strtoull argv
   = Outcome 1 ""%string
       (String.append "Usage: ./radix_simd <n1> <n2> ..."%string newline)) /\
  ((2 <= length argv)%nat ->
   exit_code (main strtoull argv) = 0 /\
   cerr (main strtoull argv) = ""%string /\
   exists verdicts : list bool,
     length verdicts = (length argv - 1)%nat /\
     cout (main strtoull argv)
     = String.append (String.append "SIMD sieve results:"%string newline)
         (lines_text
            (zip_with (fun a v => report_line (wrap64 (strtoull a)) v)
                      (drop 1 argv) verdicts)) /\
     forall i a v,
       drop 1 argv !! i = Some a -> verdicts !! i = Some v ->
       (v = true <-> Z.prime (wrap64 (strtoull a)))).
Proof.
  split.
  - intros Hlt. unfold main.
    destruct (Nat.ltb_spec (length argv) 2); [reflexivity | lia].
  - intros Hge. unfold main.
    destruct (Nat.ltb_spec (length argv) 2) as [| _]; [lia |].
    cbv zeta. cbn [exit_code cerr cout].
    split; [reflexivity |]. split; [reflexivity |].
    pose proof (collect_arguments (fun a => wrap64 (strtoull a)) argv
                  (length argv - 1) [] ltac:(lia)) as Hargs.
    cbv beta in Hargs. rewrite Hargs. clear Hargs.
    rewrite app_nil_l, take_ge by (rewrite length_drop; lia).
    set (g := fun a => wrap64 (strtoull a)).
    set (numbers := map g (drop 1 argv)).
    assert (Hall : Forall is_uint64 numbers).
    { apply Forall_forall. intros n (a & <- & _)%in_map_iff.
      unfold g, wrap64, is_uint64. apply Z.mod_pos_bound. lia. }
    rewrite (process_scalar_map numbers [] Hall).
    exists ((fun a => is_prime_scalar (g a)) <$> drop 1 argv).
    split; [rewrite length_fmap, length_drop; reflexivity |]. split.
    + rewrite print_lines. f_equal. f_equal.
      transitivity (map (fun n => report_line n (is_prime_scalar n)) numbers).
      * rewrite <- (map_seq_lookup (fun n => report_line n (is_prime_scalar n)) numbers).
        apply map_ext_in. intros i Hi%in_seq. f_equal.
        rewrite (list_lookup_total_fmap is_prime_scalar numbers i) by lia. reflexivity.
      * unfold numbers. generalize (drop 1 argv). intros l.
        induction l as [| a l IH]; cbn; [reflexivity | rewrite IH; reflexivity].
    + intros i a v Ha Hv.
      rewrite list_lookup_fmap, Ha in Hv. cbn in Hv.
      injection Hv as <-.
      apply is_prime_scalar_iff_prime.
      unfold g, wrap64, is_uint64. apply Z.mod_pos_bound. lia.
Qed.

(** ** Lanes *)

(** X13. The lanes do not interact: lane [j] of the first result
    of [barrett_modq_u32_dual], and lane [j] of the first composite
    mask after the bank, depend on lane [j] of the first input register
    only, not on its other lanes and not on the second register; and
    the same for the second register. *)
Theorem lanes_are_independent
    (a1 a2 b1 b2 : uint32x4_t) (p : Z) (j : nat) :
  let m_vec := vdupq_n_u32 (make_barrett_magic p) in
  let p_vec := vdupq_n_u32 p in
  (lane a1 j = lane b1 j ->
   lane (fst (barrett_modq_u32_dual a1 a2 m_vec p_vec)) j
   = lane (fst (barrett_modq_u32_dual b1 b2 m_vec p_vec)) j /\
   lane (fst (sieve_bank a1 a2)) j = lane (fst (sieve_bank b1 b2)) j) /\
  (lane a2 j = lane b2 j ->
   lane (snd (barrett_modq_u32_dual a1 a2 m_vec p_vec)) j
   = lane (snd (barrett_modq_u32_dual b1 b2 m_vec p_vec)) j /\
   lane (snd (sieve_bank a1 a2)) j = lane (snd (sieve_bank b1 b2)) j).
Proof.
  cbv zeta.
  destruct (barrett_dual_lane a1 a2 (vdupq_n_u32 (make_barrett_magic p))
              (vdupq_n_u32 p) j) as [A1 A2].
  destruct (barrett_dual_lane b1 b2 (vdupq_n_u32 (make_barrett_magic p))
              (vdupq_n_u32 p) j) as [B1 B2].
  destruct (sieve_bank_lane a1 a2 j) as [SA1 SA2].
  destruct (sieve_bank_lane b1 b2 j) as [SB1 SB2].
  split; intros H.
  - rewrite A1, B1, SA1, SB1, H. split; reflexivity.
  - rewrite A2, B2, SA2, SB2, H. split; reflexivity.
Qed.

Lemma lanes_are_independent_witness :
  let a1 := U32x4 91 1 2 3 in
  let a2 := U32x4 2147483648 4 5 6 in
  let b1 := U32x4 91 97 3127 0 in
  let b2 := U32x4 15 53 2809 4294967295 in
  let c1 := U32x4 15 53 2809 0 in
  let c2 := U32x4 2147483648 9 9 9 in
  let m_vec := vdupq_n_u32 (make_barrett_magic 7) in
  let p_vec := vdupq_n_u32 7 in
  (lane a1 0 = lane b1 0 /\ lane a2 0 <> lane b2 0 /\
   lane (fst (barrett_modq_u32_dual a1 a2 m_vec p_vec)) 0
   = lane (fst (barrett_modq_u32_dual b1 b2 m_vec p_vec)) 0 /\
   lane (fst (sieve_bank a1 a2)) 0 = lane (fst (sieve_bank b1 b2)) 0) /\
  (lane a2 0 = lane c2 0 /\ lane a1 0 <> lane c1 0 /\
   lane (snd (barrett_modq_u32_dual a1 a2 m_vec p_vec)) 0
   = lane (snd (barrett_modq_u32_dual c1 c2 m_vec p_vec)) 0 /\
   lane (snd (sieve_bank a1 a2)) 0 = lane (snd (sieve_bank c1 c2)) 0).
Proof.
  cbv zeta. split.
  - split; [reflexivity |]. split; [discriminate |].
    exact (proj1 (lanes_are_independent (U32x4 91 1 2 3)
                    (U32x4 2147483648 4 5 6) (U32x4 91 97 3127 0)
                    (U32x4 15 53 2809 4294967295) 7 0%nat) eq_refl).
  - split; [reflexivity |]. split; [discriminate |].
    exact (proj2 (lanes_are_independent (U32x4 91 1 2 3)
                    (U32x4 2147483648 4 5 6) (U32x4 15 53 2809 0)
                    (U32x4 2147483648 9 9 9) 7 0%nat) eq_refl).
Defined.

Lemma group_body_footprint_witness :
  (5 < 8)%nat /\
  group_body sample_batch (replicate 17 false) 8 !! (8 + 5)%nat = Some true /\
  is_prime_scalar (sample_batch !!! (8 + 5)%nat) = true.
Proof.
  assert (H1 : (5 < 8)%nat) by lia.
  assert (H2 : group_body sample_batch (replicate 17 false) 8 !! (8 + 5)%nat
               = Some true) by (vm_compute; reflexivity).
  split; [exact H1 |]. split; [exact H2 |].
  exact (proj2 (proj2 (group_body_footprint sample_batch (replicate 17 false) 8))
           5%nat H1 H2).
Defined.

Lemma main_report_witness :
  let strtoull := fun s => Z.of_nat (String.length s) in
  let argv := ["radix_simd"; "ab"; "abcd"; "abcdefg"]%string in
  (2 <= length argv)%nat /\
  exit_code (main strtoull argv) = 0 /\
  cerr (main strtoull argv) = ""%string /\
  exists verdicts : list bool,
    length verdicts = (length argv - 1)%nat /\
    cout (main strtoull argv)
    = String.append (String.append "SIMD sieve results:"%string newline)
        (lines_text
           (zip_with (fun a v => report_line (wrap64 (strtoull a)) v)
                     (drop 1 argv) verdicts)) /\
    forall i a v,
      drop 1 argv !! i = Some a -> verdicts !! i = Some v ->
      (v = true <-> Z.prime (wrap64 (strtoull a))).
Proof.
  cbv zeta.
  assert (H : (2 <= length ["radix_simd"; "ab"; "abcd"; "abcdefg"]%string)%nat)
    by (cbn; lia).
  split; [exact H |].
  exact (proj2 (main_report (fun s => Z.of_nat (String.length s))
                  ["radix_simd"; "ab"; "abcd"; "abcdefg"]%string) H).
Defined.
